(** * Historical market returns: the panel pipeline of the notebook

    A shallow embedding of [Historical_Market_Returns.ipynb]: the cleaning of
    the CRSP security table and of the delisting table, their outer merge,
    the total return, the lagged market equity, the share-code / exchange
    filter, the monthly value- and equal-weighted aggregation against the
    Fama-French risk-free rate, and the annualised summary statistics.

    Tables are lists of records, one record per row, in row order.  A
    nullable cell is an [option] ([None] is pandas' NaN / missing); a cell
    that arithmetic produced may hold a NaN of its own, which pandas takes
    for missing as well, so a cell is defined when it is present and is not
    NaN.

    The notebook computes in binary64.  Every definition below is written
    once, over an arithmetic interface [Num], and is run at two instances:
    the real numbers (exact arithmetic, where the algebraic laws hold) and
    the kernel's binary64 floats (the arithmetic the notebook runs on). *)

From Stdlib Require Import Floats.
From Stdlib Require Import ZArith List Bool Reals Lra Lia Permutation Sorted.
Import ListNotations.

Set Implicit Arguments.
Set Warnings "-inexact-float".

Open Scope Z_scope.

(** ** Arithmetic interface *)

Class Num (F : Type) : Type := {
  nofZ : Z -> F;            (* an integer literal or a count, as a number *)
  nadd : F -> F -> F;
  nsub : F -> F -> F;
  nmul : F -> F -> F;
  ndiv : F -> F -> F;
  nabs : F -> F;            (* np.absolute *)
  nsqrt : F -> F;           (* np.sqrt *)
  is_nan : F -> bool        (* the value is NaN *)
}.

(** Exact arithmetic: no NaN, and the field laws hold. *)
#[export] Instance Num_R : Num R := {|
  nofZ := IZR; nadd := Rplus; nsub := Rminus; nmul := Rmult; ndiv := Rdiv;
  nabs := Rabs; nsqrt := R_sqrt.sqrt; is_nan := fun _ => false |}.

Definition float_of_Z (z : Z) : float :=
  if z <? 0 then PrimFloat.opp (PrimFloat.of_uint63 (Uint63.of_Z (- z)))
  else PrimFloat.of_uint63 (Uint63.of_Z z).

(** IEEE 754 binary64, round to nearest even: numpy's float64. *)
#[export] Instance Num_float : Num float := {|
  nofZ := float_of_Z; nadd := PrimFloat.add; nsub := PrimFloat.sub;
  nmul := PrimFloat.mul; ndiv := PrimFloat.div; nabs := PrimFloat.abs;
  nsqrt := PrimFloat.sqrt; is_nan := PrimFloat.is_nan |}.

(** ** Column operations of the data frame library *)

Section Frame.
Context {F : Type} {N : Num F}.

(** [Series.fillna(d)] on one cell: a cell is missing when it is absent or
    holds NaN. *)
Definition fillna (d : F) (o : option F) : F :=
  match o with
  | None => d
  | Some x => if is_nan x then d else x
  end.

(** *** numpy's sum of a contiguous array

    [np.add.reduce] starts from the identity 0 and adds the pairwise sum of
    the array: fewer than 8 cells are added one by one from 0; up to 128
    cells are added in eight lanes, the lanes are added in pairs and the
    cells left over (fewer than 8) are added one by one; a longer array is
    cut in two, the first part [n / 2] cells long, rounded down to a multiple
    of 8. *)

Definition sum_serial (init : F) (l : list F) : F := fold_left nadd l init.

Record lanes : Type := {
  r0 : F; r1 : F; r2 : F; r3 : F; r4 : F; r5 : F; r6 : F; r7 : F }.

(** [r[j] += a[i + j]] for every full group of eight cells; the cells left
    over are returned. *)
Fixpoint add_lanes (r : lanes) (l : list F) : lanes * list F :=
  match l with
  | a0 :: a1 :: a2 :: a3 :: a4 :: a5 :: a6 :: a7 :: t =>
      add_lanes {| r0 := nadd (r0 r) a0; r1 := nadd (r1 r) a1;
                   r2 := nadd (r2 r) a2; r3 := nadd (r3 r) a3;
                   r4 := nadd (r4 r) a4; r5 := nadd (r5 r) a5;
                   r6 := nadd (r6 r) a6; r7 := nadd (r7 r) a7 |} t
  | _ => (r, l)
  end.

(** [((r[0] + r[1]) + (r[2] + r[3])) + ((r[4] + r[5]) + (r[6] + r[7]))]. *)
Definition add_pairs (r : lanes) : F :=
  nadd (nadd (nadd (r0 r) (r1 r)) (nadd (r2 r) (r3 r)))
       (nadd (nadd (r4 r) (r5 r)) (nadd (r6 r) (r7 r))).

(** The sum of at most 128 cells. *)
Definition sum_block (l : list F) : F :=
  match l with
  | a0 :: a1 :: a2 :: a3 :: a4 :: a5 :: a6 :: a7 :: t =>
      let (r, rest) :=
        add_lanes {| r0 := a0; r1 := a1; r2 := a2; r3 := a3;
                     r4 := a4; r5 := a5; r6 := a6; r7 := a7 |} t in
      sum_serial (add_pairs r) rest
  | _ => sum_serial (nofZ 0) l
  end.

(** The pairwise sum; the recursion halves the array, so a fuel of its
    length is never used up. *)
Fixpoint pairwise_sum_upto (fuel : nat) (l : list F) : F :=
  if (length l <=? 128)%nat then sum_block l
  else
    match fuel with
    | O => sum_block l
    | S fuel' =>
        let n2 := (length l / 2 - (length l / 2) mod 8)%nat in
        nadd (pairwise_sum_upto fuel' (firstn n2 l))
             (pairwise_sum_upto fuel' (skipn n2 l))
    end.

Definition pairwise_sum (l : list F) : F := pairwise_sum_upto (length l) l.

(** [values.sum()] of a float column.  (Starting from 0 shows in the sign
    of a zero sum only.) *)
Definition np_sum (l : list F) : F := nadd (nofZ 0) (pairwise_sum l).

(** *** The reductions of pandas, which skip NaN *)

(** The cells of a column with 0 in place of NaN. *)
Definition zero_fill (l : list F) : list F :=
  map (fun x => if is_nan x then nofZ 0 else x) l.

(** [Series.sum()]: numpy's sum of the column with 0 in place of NaN. *)
Definition nansum (l : list F) : F := np_sum (zero_fill l).

(** [Series.count()]: the number of cells that are not NaN. *)
Definition count (l : list F) : Z :=
  Z.of_nat (length (filter (fun x => negb (is_nan x)) l)).

(** [Series.mean()]: the sum over the count, NaN skipped. *)
Definition mean (l : list F) : F :=
  ndiv (nansum l) (nofZ (count l)).

(** [Series.std()], with pandas' default [ddof = 1]: NaN when fewer than
    two values are present; else the squared deviations from the mean, with
    0 where the cell itself is NaN, are summed, divided by [count - 1], and
    the root is taken. *)
Definition std (l : list F) : option F :=
  if count l <=? 1 then None
  else
    let avg := mean l in
    let sqr := map (fun x => if is_nan x then nofZ 0
                             else nmul (nsub avg x) (nsub avg x)) l in
    Some (nsqrt (ndiv (np_sum sqr) (nofZ (count l - 1)))).
End Frame.

Section Columns.
Context {A : Type}.

(** [Series.ffill()]: a missing cell takes the last value seen above it
    in the column; [last] is that value. *)
Fixpoint ffill_from (last : option A) (l : list (option A)) : list (option A) :=
  match l with
  | [] => []
  | x :: t =>
      let v := match x with Some _ => x | None => last end in
      v :: ffill_from v t
  end.

Definition ffill (l : list (option A)) : list (option A) := ffill_from None l.

(** [groupby(key).shift(1)]: each row gets the value of the previous row
    of its own group; [last] maps a key to the latest value of its group. *)
Fixpoint groupby_shift_from (last : Z -> option A) (keys : list Z) (vals : list A)
  : list (option A) :=
  match keys, vals with
  | k :: ks, v :: vs =>
      last k :: groupby_shift_from (fun q => if q =? k then Some v else last q) ks vs
  | _, _ => []
  end.

Definition groupby_shift (keys : list Z) (vals : list A) : list (option A) :=
  groupby_shift_from (fun _ => None) keys vals.

(** Row-wise combination of two and of three columns. *)
Fixpoint map2 {B C} (f : A -> B -> C) (l : list A) (m : list B) : list C :=
  match l, m with
  | x :: l', y :: m' => f x y :: map2 f l' m'
  | _, _ => []
  end.

Fixpoint map3 {B C D} (f : A -> B -> C -> D) (l : list A) (m : list B) (n : list C)
  : list D :=
  match l, m, n with
  | x :: l', y :: m', z :: n' => f x y z :: map3 f l' m' n'
  | _, _, _ => []
  end.

(** [sort_values]: a stable sort, by insertion. *)
Variable leb : A -> A -> bool.

Fixpoint insert (x : A) (l : list A) : list A :=
  match l with
  | [] => [x]
  | y :: t => if leb x y then x :: y :: t else y :: insert x t
  end.

Definition sort_values (l : list A) : list A := fold_right insert [] l.

(** [drop_duplicates]: the first occurrence of each row is kept. *)
Variable eqb : A -> A -> bool.

Fixpoint drop_duplicates (l : list A) : list A :=
  match l with
  | [] => []
  | x :: t => x :: filter (fun y => negb (eqb x y)) (drop_duplicates t)
  end.
End Columns.

(** [Series.diff(1)] on an integer column: the first cell is NaN. *)
Definition diff1 (l : list Z) : list (option Z) :=
  match l with
  | [] => []
  | _ :: t => None :: map2 (fun x prev => Some (x - prev)) t l
  end.

(** ** Data model *)

(** A date normalised to the end of its month ([+ MonthEnd(0)]). *)
Record ym : Type := { year : Z; month : Z }.

Definition ym_eqb (a b : ym) : bool :=
  (year a =? year b) && (month a =? month b).

Definition ym_leb (a b : ym) : bool :=
  (year a <? year b) || ((year a =? year b) && (month a <=? month b)).

(** The sort key [['permno','date']]. *)
Definition key_leb (a b : Z * ym) : bool :=
  (fst a <? fst b) || ((fst a =? fst b) && ym_leb (snd a) (snd b)).

Definition key_eqb (a b : Z * ym) : bool :=
  (fst a =? fst b) && ym_eqb (snd a) (snd b).

Section Compositor.
Context {F : Type} {N : Num F}.

(** A row of [crsp_raw], with the columns the notebook reads; [permco],
    [retx], [cfacshr] and [cfacpr] are fetched and never used.  The share and
    exchange codes come from a left join and may be missing. *)
Record crsp_row : Type := {
  c_permno : Z; c_date : ym;
  c_shrcd : option Z; c_exchcd : option Z;
  c_ret : option F; c_shrout : option F; c_prc : option F }.

(** A row of [dlret_raw]: [dlstdt] is the day [d_day] of the month
    [d_date]; [d_date], [dlstdt + MonthEnd(0)], is the month the table is
    merged on. *)
Record dl_row : Type := {
  d_permno : Z; d_date : ym; d_day : Z; d_dlret : option F }.

(** A row of [stocks] right after the merge. *)
Record merged : Type := {
  m_permno : Z; m_date : ym;
  m_shrcd : option Z; m_exchcd : option Z;
  m_ret : option F; m_shrout : option F; m_prc : option F;
  m_dlret : option F }.

(** A row of [stocks] once the gaps are filled and [me] is attached. *)
Record stock : Type := {
  permno : Z; date : ym;
  shrcd : option Z; exchcd : option Z;
  ret : F; shrout : F; prc : F; dlret : F; me : F }.

(** A row of [stocks] with its lagged market equity. *)
Record lagged : Type := { row : stock; lme : option F }.

(** *** Cleaning *)

Definition c_key (c : crsp_row) : Z * ym := (c_permno c, c_date c).
Definition d_key (d : dl_row) : Z * ym := (d_permno d, d_date d).
Definition m_key (m : merged) : Z * ym := (m_permno m, m_date m).
Definition s_key (s : stock) : Z * ym := (permno s, date s).

Definition abs_prc (c : crsp_row) : crsp_row :=
  {| c_permno := c_permno c; c_date := c_date c;
     c_shrcd := c_shrcd c; c_exchcd := c_exchcd c;
     c_ret := c_ret c; c_shrout := c_shrout c;
     c_prc := option_map nabs (c_prc c) |}.

Definition clean_crsp (crsp_raw : list crsp_row) : list crsp_row :=
  map abs_prc (sort_values (fun a b => key_leb (c_key a) (c_key b)) crsp_raw).

(** The sort key [['permno','dlstdt']]: the delisting table is sorted by
    day, before the month is derived. *)
Definition dlstdt_leb (a b : dl_row) : bool :=
  (d_permno a <? d_permno b)
  || ((d_permno a =? d_permno b)
      && ((ym_leb (d_date a) (d_date b) && negb (ym_eqb (d_date a) (d_date b)))
          || (ym_eqb (d_date a) (d_date b) && (d_day a <=? d_day b)))).

Definition clean_dlret (dlret_raw : list dl_row) : list dl_row :=
  sort_values dlstdt_leb dlret_raw.

(** *** Outer merge on [['permno','date']] *)

Definition of_both (c : crsp_row) (dl : option F) : merged :=
  {| m_permno := c_permno c; m_date := c_date c;
     m_shrcd := c_shrcd c; m_exchcd := c_exchcd c;
     m_ret := c_ret c; m_shrout := c_shrout c; m_prc := c_prc c;
     m_dlret := dl |}.

Definition of_right (d : dl_row) : merged :=
  {| m_permno := d_permno d; m_date := d_date d;
     m_shrcd := None; m_exchcd := None;
     m_ret := None; m_shrout := None; m_prc := None;
     m_dlret := d_dlret d |}.

(** The rows a security-month of the left table gives: one per matching
    delisting, or one with no delisting return. *)
Definition merge_left (dl : list dl_row) (c : crsp_row) : list merged :=
  match filter (fun d => key_eqb (c_key c) (d_key d)) dl with
  | [] => [of_both c None]
  | ds => map (fun d => of_both c (d_dlret d)) ds
  end.

Definition right_only (crsp : list crsp_row) (dl : list dl_row) : list dl_row :=
  filter (fun d => negb (existsb (fun c => key_eqb (c_key c) (d_key d)) crsp)) dl.

(** [crsp_raw.merge(dlret_raw, how='outer', on=['permno','date'])]: the
    union of the keys, ordered by key as pandas documents it.  (Releases of
    pandas before 2.2 kept the left rows in their order and put the keys found
    on the right only at the end; only the forward fill below reads the row
    order of the merged table, which is sorted again before the lag.) *)
Definition merge_outer (crsp : list crsp_row) (dl : list dl_row) : list merged :=
  sort_values (fun a b => key_leb (m_key a) (m_key b))
    (flat_map (merge_left dl) crsp ++ map of_right (right_only crsp dl)).

(** *** Filling, market equity, total return *)

(** [(1 + ret) * (1 + dlret) - 1]. *)
Definition total_return (r d : F) : F :=
  nsub (nmul (nadd (nofZ 1) r) (nadd (nofZ 1) d)) (nofZ 1).

(** One row after [fillna(0)] on [dlret], [ret], [prc] and [shrout], with
    [me = prc * shrout] and the total return; [sc] and [ec] are the forward
    filled codes of the row. *)
Definition fill_row (m : merged) (sc ec : option Z) : stock :=
  let dlret' := fillna (nofZ 0) (m_dlret m) in
  let ret' := fillna (nofZ 0) (m_ret m) in
  let prc' := fillna (nofZ 0) (m_prc m) in
  let shrout' := fillna (nofZ 0) (m_shrout m) in
  {| permno := m_permno m; date := m_date m;
     shrcd := sc; exchcd := ec;
     ret := total_return ret' dlret';
     shrout := shrout'; prc := prc'; dlret := dlret';
     me := nmul prc' shrout' |}.

(** [shrcd] and [exchcd] are forward filled down the whole table. *)
Definition stocks_filled (ms : list merged) : list stock :=
  map3 fill_row ms (ffill (map m_shrcd ms)) (ffill (map m_exchcd ms)).

(** *** Lagged market equity *)

Definition daten (s : stock) : Z := year (date s) * 12 + month (date s).

(** [stocks['daten'].diff(1) == 1], then [False] wherever
    [stocks['permno'].diff(1) != 0] (a comparison with NaN is [False] for
    [==] and [True] for [!=]). *)
Definition IsValidLag (rows : list stock) : list bool :=
  let next_month :=
    map (fun d => match d with Some 1 => true | _ => false end)
        (diff1 (map daten rows)) in
  let other_security :=
    map (fun d => match d with Some 0 => false | _ => true end)
        (diff1 (map permno rows)) in
  map2 (fun v o => if o : bool then false else v) next_month other_security.

(** [lme] is [me] shifted by one row within each [permno], then NaN
    wherever [IsValidLag] is [False]. *)
Definition attach_lme (rows : list stock) : list lagged :=
  map3 (fun s valid shifted =>
          {| row := s; lme := if valid : bool then shifted else None |})
       rows (IsValidLag rows) (groupby_shift (map permno rows) (map me rows)).

(** The enriched panel: merge, fill, sort by security and date, lag. *)
Definition enriched (crsp_raw : list crsp_row) (dlret_raw : list dl_row) : list lagged :=
  attach_lme
    (sort_values (fun a b => key_leb (s_key a) (s_key b))
       (stocks_filled (merge_outer (clean_crsp crsp_raw) (clean_dlret dlret_raw)))).
End Compositor.

Arguments crsp_row : clear implicits.
Arguments dl_row : clear implicits.
Arguments merged : clear implicits.
Arguments stock : clear implicits.
Arguments lagged : clear implicits.

(** ** Filter and reshape *)

Section Reshape.
Context {F : Type} {N : Num F}.

Definition code_is (c : option Z) (v : Z) : bool :=
  match c with
  | Some x => x =? v
  | None => false
  end.

(** [shrcd] is 10 or 11 and [exchcd] is 1, 2 or 3. *)
Definition common_on_major (r : lagged F) : bool :=
  (code_is (shrcd (row r)) 10 || code_is (shrcd (row r)) 11)
  && (code_is (exchcd (row r)) 1 || code_is (exchcd (row r)) 2
      || code_is (exchcd (row r)) 3).

Definition share_exchange_filter (l : list (lagged F)) : list (lagged F) :=
  filter common_on_major l.

(** A row of the analysis panel:
    [['permno','year','month','prc','shrout','lme','ret']], no cell missing. *)
Record panel_row : Type := {
  p_permno : Z; p_year : Z; p_month : Z;
  p_prc : F; p_shrout : F; p_lme : F; p_ret : F }.

(** The projection to the final columns, if no cell of the row is missing. *)
Definition complete_row (r : lagged F) : option panel_row :=
  match lme r with
  | Some l =>
      if is_nan (prc (row r)) || is_nan (shrout (row r)) || is_nan l
         || is_nan (ret (row r))
      then None
      else Some {| p_permno := permno (row r);
                   p_year := year (date (row r)); p_month := month (date (row r));
                   p_prc := prc (row r); p_shrout := shrout (row r);
                   p_lme := l; p_ret := ret (row r) |}
  | None => None
  end.

(** [stocks.dropna()] after the column selection. *)
Fixpoint dropna (l : list (lagged F)) : list panel_row :=
  match l with
  | [] => []
  | r :: t =>
      match complete_row r with
      | Some p => p :: dropna t
      | None => dropna t
      end
  end.

(** The analysis panel, [stocks] at the end of the cell. *)
Definition stocks (crsp_raw : list (crsp_row F)) (dlret_raw : list (dl_row F))
  : list panel_row :=
  dropna (share_exchange_filter (enriched crsp_raw dlret_raw)).
End Reshape.

Arguments panel_row : clear implicits.

(** ** Market aggregator *)

Section Aggregator.
Context {F : Type} {N : Num F}.

(** A row of [french]; [f_year] and [f_month] are read off its date. *)
Record french_row : Type := {
  f_year : Z; f_month : Z;
  mktrf : F; smb : F; hml : F; rf : F }.

(** The derived column [french['mkt']]. *)
Definition mkt (f : french_row) : F := nadd (mktrf f) (rf f).

(** A row of [monthly_returns]. *)
Record monthly_return : Type := {
  mr_year : Z; mr_month : Z;
  MktRF_VW : F; MktRF_EW : F; Lagged_Mkt_Value : F }.

Definition p_ym (p : panel_row F) : ym := {| year := p_year p; month := p_month p |}.
Definition f_ym (f : french_row) : ym := {| year := f_year f; month := f_month f |}.
Definition mr_ym (m : monthly_return) : ym := {| year := mr_year m; month := mr_month m |}.

Definition french_date (french : list french_row) : list ym :=
  sort_values ym_leb (drop_duplicates ym_eqb (map f_ym french)).

Definition stock_date (stocks : list (panel_row F)) : list ym :=
  sort_values ym_leb (drop_duplicates ym_eqb (map p_ym stocks)).

(** [left.merge(right, how='inner', on=['year','month'])] on two key
    tables: a row per pair of equal keys, in the order of the left table. *)
Definition merge_inner_keys (left right : list ym) : list ym :=
  flat_map (fun k => map (fun _ => k) (filter (ym_eqb k) right)) left.

(** The frame [date] the loop iterates over. *)
Definition date_both (french : list french_row) (stocks : list (panel_row F)) : list ym :=
  merge_inner_keys (french_date french) (stock_date stocks).

Definition this_stocks (stocks : list (panel_row F)) (k : ym) : list (panel_row F) :=
  filter (fun s => (p_year s =? year k) && (p_month s =? month k)) stocks.

(** [french[...]['rf'].iloc[0]]: [None] is the [IndexError] of an empty
    selection. *)
Definition rf_of (french : list french_row) (k : ym) : option F :=
  hd_error (map rf (filter (fun f => (f_year f =? year k) && (f_month f =? month k)) french)).

Definition start_value (rows : list (panel_row F)) : F :=
  nansum (map (@p_lme F) rows).

Definition end_value (rows : list (panel_row F)) : F :=
  nansum (map (fun s => nmul (p_lme s) (nadd (nofZ 1) (p_ret s))) rows).

Definition value_monthly_return (rows : list (panel_row F)) (rf : F) : F :=
  nsub (ndiv (nsub (end_value rows) (start_value rows)) (start_value rows)) rf.

Definition equal_monthly_return (rows : list (panel_row F)) (rf : F) : F :=
  nsub (mean (map (@p_ret F) rows)) rf.

(** The body of the loop for one row of [date]. *)
Definition month_return (french : list french_row) (stocks : list (panel_row F)) (k : ym)
  : option monthly_return :=
  match rf_of french k with
  | None => None
  | Some rf =>
      let rows := this_stocks stocks k in
      Some {| mr_year := year k; mr_month := month k;
              MktRF_VW := value_monthly_return rows rf;
              MktRF_EW := equal_monthly_return rows rf;
              Lagged_Mkt_Value := start_value rows |}
  end.

(** The loop: the results are appended in iteration order; an exception in
    one iteration aborts the whole run. *)
Fixpoint iterrows {A B} (body : A -> option B) (l : list A) : option (list B) :=
  match l with
  | [] => Some []
  | x :: t =>
      match body x with
      | None => None
      | Some y =>
          match iterrows body t with
          | None => None
          | Some ys => Some (y :: ys)
          end
      end
  end.

Definition monthly_returns (french : list french_row) (stocks : list (panel_row F))
  : option (list monthly_return) :=
  iterrows (month_return french stocks) (date_both french stocks).

(** ** Comparator *)

(** [monthly_returns.merge(french, how='inner', on=['year','month'])]. *)
Definition both (mr : list monthly_return) (french : list french_row)
  : list (monthly_return * french_row) :=
  flat_map (fun m => map (pair m) (filter (fun f => ym_eqb (mr_ym m) (f_ym f)) french)) mr.

Definition annualized_mean (series : list F) : F :=
  nmul (nofZ 1200) (mean series).

Definition annualized_std (series : list F) : option F :=
  option_map (nmul (nmul (nofZ 100) (nsqrt (nofZ 12)))) (std series).

Definition sharpe (series : list F) : option F :=
  option_map (ndiv (annualized_mean series)) (annualized_std series).

Definition mktrf_series (b : list (monthly_return * french_row)) : list F :=
  map (fun x => mktrf (snd x)) b.

Definition vw_series (b : list (monthly_return * french_row)) : list F :=
  map (fun x => MktRF_VW (fst x)) b.

End Aggregator.

Arguments french_row : clear implicits.
Arguments monthly_return : clear implicits.

(** ** Comparator: correlation and largest deviation *)

(** Order-dependent operations of numpy: [np.maximum] and [np.minimum],
    which return NaN as soon as one argument is NaN. *)
Class NumOrd (F : Type) : Type := {
  nmax : F -> F -> F;
  nmin : F -> F -> F
}.

#[export] Instance NumOrd_R : NumOrd R := {| nmax := Rmax; nmin := Rmin |}.

Definition float_max (a b : float) : float :=
  if PrimFloat.is_nan a then a
  else if PrimFloat.is_nan b then b
  else if PrimFloat.ltb a b then b else a.

Definition float_min (a b : float) : float :=
  if PrimFloat.is_nan a then a
  else if PrimFloat.is_nan b then b
  else if PrimFloat.ltb b a then b else a.

#[export] Instance NumOrd_float : NumOrd float :=
  {| nmax := float_max; nmin := float_min |}.

Section Deviation.
Context {F : Type} {N : Num F} {O : NumOrd F}.

(** [Series.max()]: NaN is skipped; the maximum of no value is NaN. *)
Definition nanmax (l : list F) : option F :=
  match filter (fun x => negb (is_nan x)) l with
  | [] => None
  | x :: t => Some (fold_left nmax t x)
  end.

(** [(both['MktRF-VW'] - both['mktrf']).abs()]. *)
Definition abs_diff (b : list (monthly_return F * french_row F)) : list F :=
  map (fun x => nabs (nsub (MktRF_VW (fst x)) (mktrf (snd x)))) b.

Definition max_absolute_diff (b : list (monthly_return F * french_row F)) : option F :=
  nanmax (abs_diff b).

(** The rows of two aligned columns at which both cells are present. *)
Definition valid_pairs (a b : list F) : list (F * F) :=
  filter (fun p => negb (is_nan (fst p)) && negb (is_nan (snd p))) (combine a b).

(** [np.dot] of a row with a row: the products are added from 0 in row
    order.  (numpy hands the product of the centred rows to the BLAS
    library, which may add in another order; in exact arithmetic the order
    does not matter.) *)
Definition total (l : list F) : F := fold_left nadd l (nofZ 0).

(** [np.average] of a row that holds no NaN: numpy's sum over the length. *)
Definition average (l : list F) : F := ndiv (np_sum l) (nofZ (Z.of_nat (length l))).

(** An entry of [np.cov] with its default [ddof = 1]: the product of the
    centred rows, times [1 / (n - 1)]. *)
Definition cov (x y : list F) : F :=
  let ax := average x in
  let ay := average y in
  nmul (total (map2 (fun u v => nmul (nsub u ax) (nsub v ay)) x y))
       (ndiv (nofZ 1) (nofZ (Z.of_nat (length x) - 1))).

(** [np.clip(c, -1, 1)]. *)
Definition clip_unit (c : F) : F := nmin (nmax c (nofZ (-1))) (nofZ 1).

(** [np.corrcoef(x, y)[0, 1]]: the covariance divided by the root of each
    variance in turn, then clipped. *)
Definition corrcoef (x y : list F) : F :=
  clip_unit (ndiv (ndiv (cov x y) (nsqrt (cov x x))) (nsqrt (cov y y))).

(** [a.corr(b)], Pearson, [min_periods = 1]: over the rows at which both
    series are present; NaN when there is none. *)
Definition corr (a b : list F) : option F :=
  match valid_pairs a b with
  | [] => None
  | ps => Some (corrcoef (map fst ps) (map snd ps))
  end.

Definition correlation (b : list (monthly_return F * french_row F)) : option F :=
  corr (vw_series b) (mktrf_series b).
End Deviation.

(** ** Reference formulations and sample tables *)

Section Scan.
Context {F : Type} {N : Num F}.

(** The lag as a single scan with a "previous row" tracker. *)
Definition lag_of (prev : option (stock F)) (s : stock F) : option F :=
  match prev with
  | Some p =>
      if (permno s - permno p =? 0) && (daten s - daten p =? 1)
      then Some (me p) else None
  | None => None
  end.

Fixpoint scan_lme (prev : option (stock F)) (rows : list (stock F)) : list (lagged F) :=
  match rows with
  | [] => []
  | s :: t => {| row := s; lme := lag_of prev s |} :: scan_lme (Some s) t
  end.
End Scan.

(** The sum of a list of reals, as in a textbook. *)
Fixpoint Rsum (l : list R) : R :=
  match l with
  | [] => 0%R
  | x :: t => (x + Rsum t)%R
  end.

(** The arithmetic mean, and the sample and population standard deviations
    of a list of reals, as in a textbook. *)
Definition Rmean (l : list R) : R := (Rsum l / INR (length l))%R.

Definition sample_std (l : list R) : R :=
  R_sqrt.sqrt (Rsum (map (fun x => Rsqr (x - Rmean l)) l) / (INR (length l) - 1)).

Definition population_std (l : list R) : R :=
  R_sqrt.sqrt (Rsum (map (fun x => Rsqr (x - Rmean l)) l) / INR (length l)).

(** ** Sample tables *)

Definition ym_of (y m : Z) : ym := {| year := y; month := m |}.

(** One security, January and February 2020; the January price is missing. *)
Definition crsp_gap_price : list (crsp_row float) :=
  [ {| c_permno := 1; c_date := ym_of 2020 1; c_shrcd := Some 10; c_exchcd := Some 1;
       c_ret := Some 0.5%float; c_shrout := Some 100%float; c_prc := None |};
    {| c_permno := 1; c_date := ym_of 2020 2; c_shrcd := Some 10; c_exchcd := Some 1;
       c_ret := Some 0.25%float; c_shrout := Some 100%float; c_prc := Some (-10)%float |} ].

(** One listed security observed in January 2020, and a delisting event of
    another security, never observed, in February 2020. *)
Definition crsp_one_listed : list (crsp_row float) :=
  [ {| c_permno := 1; c_date := ym_of 2020 1; c_shrcd := Some 10; c_exchcd := Some 1;
       c_ret := Some 0.5%float; c_shrout := Some 100%float; c_prc := Some 10%float |} ].

Definition dlret_other_security : list (dl_row float) :=
  [ {| d_permno := 2; d_date := ym_of 2020 2; d_day := 14;
       d_dlret := Some (-0.5)%float |} ].

(** The reference series for February 2020 alone, and for January to
    March 2020, with a risk-free rate of 0.125 per cent a month. *)
Definition french_feb : list (french_row float) :=
  [ {| f_year := 2020; f_month := 2; mktrf := 0.5%float;
       smb := 0%float; hml := 0%float; rf := 0.00125%float |} ].

Definition french_q1 : list (french_row float) :=
  [ {| f_year := 2020; f_month := 1; mktrf := 0.25%float;
       smb := 0%float; hml := 0%float; rf := 0.00125%float |};
    {| f_year := 2020; f_month := 2; mktrf := 0.5%float;
       smb := 0%float; hml := 0%float; rf := 0.00125%float |};
    {| f_year := 2020; f_month := 3; mktrf := (-0.25)%float;
       smb := 0%float; hml := 0%float; rf := 0.00125%float |} ].

(** An analysis panel of three securities in February 2020. *)
Definition panel_feb : list (panel_row float) :=
  [ {| p_permno := 1; p_year := 2020; p_month := 2; p_prc := 10%float;
       p_shrout := 100%float; p_lme := 1000%float; p_ret := 0.1%float |};
    {| p_permno := 2; p_year := 2020; p_month := 2; p_prc := 20%float;
       p_shrout := 100%float; p_lme := 2000%float; p_ret := 0.2%float |};
    {| p_permno := 3; p_year := 2020; p_month := 2; p_prc := 30%float;
       p_shrout := 100%float; p_lme := 3000%float; p_ret := 0.3%float |} ].


(** The same February panel in exact arithmetic, with a risk-free rate of
    1/800 a month. *)
Definition french_feb_R : list (french_row R) :=
  [ {| f_year := 2020; f_month := 2; mktrf := (1 / 2)%R;
       smb := 0%R; hml := 0%R; rf := (1 / 800)%R |} ].

Definition panel_feb_R : list (panel_row R) :=
  [ {| p_permno := 1; p_year := 2020; p_month := 2; p_prc := 10%R;
       p_shrout := 100%R; p_lme := 1000%R; p_ret := (1 / 10)%R |};
    {| p_permno := 2; p_year := 2020; p_month := 2; p_prc := 20%R;
       p_shrout := 100%R; p_lme := 2000%R; p_ret := (2 / 10)%R |} ].

Definition feb_row_R : monthly_return R :=
  {| mr_year := 2020; mr_month := 2;
     MktRF_VW := value_monthly_return panel_feb_R (1 / 800)%R;
     MktRF_EW := equal_monthly_return panel_feb_R (1 / 800)%R;
     Lagged_Mkt_Value := start_value panel_feb_R |}.

(** A security reported with a negative number of shares outstanding. *)
Definition crsp_negative_shares : list (crsp_row float) :=
  [ {| c_permno := 1; c_date := ym_of 2020 1; c_shrcd := Some 10; c_exchcd := Some 1;
       c_ret := Some 0.5%float; c_shrout := Some (-100)%float; c_prc := Some 10%float |} ].

(** One security over two months in exact arithmetic, the second price
    quoted as a negative bid/ask average. *)
Definition crsp_two_months_R : list (crsp_row R) :=
  [ {| c_permno := 1; c_date := ym_of 2020 1; c_shrcd := Some 10; c_exchcd := Some 1;
       c_ret := Some (1 / 2)%R; c_shrout := Some 100%R; c_prc := Some 10%R |};
    {| c_permno := 1; c_date := ym_of 2020 2; c_shrcd := Some 10; c_exchcd := Some 1;
       c_ret := Some (1 / 4)%R; c_shrout := Some 100%R; c_prc := Some (-10)%R |} ].

(** The monthly series of the statistical scenario. *)
Definition series_five : list float :=
  [0.01; -0.02; 0.03; 0; 0.015]%float.


(** Two securities over three months: security 1 is observed in January
    only and delists in February with a delisting return of -0.5; security 2
    is observed in all three months. *)
Definition crsp_delisting : list (crsp_row float) :=
  [ {| c_permno := 1; c_date := ym_of 2020 1; c_shrcd := Some 10; c_exchcd := Some 1;
       c_ret := Some 0.25%float; c_shrout := Some 100%float; c_prc := Some 8%float |};
    {| c_permno := 2; c_date := ym_of 2020 1; c_shrcd := Some 11; c_exchcd := Some 3;
       c_ret := Some 0.5%float; c_shrout := Some 10%float; c_prc := Some 4%float |};
    {| c_permno := 2; c_date := ym_of 2020 2; c_shrcd := Some 11; c_exchcd := Some 3;
       c_ret := Some 0.25%float; c_shrout := Some 10%float; c_prc := Some 5%float |};
    {| c_permno := 2; c_date := ym_of 2020 3; c_shrcd := Some 11; c_exchcd := Some 3;
       c_ret := Some (-0.5)%float; c_shrout := Some 10%float; c_prc := Some 2.5%float |} ].

Definition dlret_delisting : list (dl_row float) :=
  [ {| d_permno := 1; d_date := ym_of 2020 2; d_day := 14;
       d_dlret := Some (-0.5)%float |} ].

(** One security over January and February 2020; the January price is
    infinite and the January shares outstanding are missing. *)
Definition crsp_infinite_price : list (crsp_row float) :=
  [ {| c_permno := 1; c_date := ym_of 2020 1; c_shrcd := Some 10; c_exchcd := Some 1;
       c_ret := Some 0.5%float; c_shrout := None; c_prc := Some infinity |};
    {| c_permno := 1; c_date := ym_of 2020 2; c_shrcd := Some 10; c_exchcd := Some 1;
       c_ret := Some 0.25%float; c_shrout := Some 100%float; c_prc := Some 10%float |} ].

(** One security with a plain return of 0.1 and no delisting. *)
Definition crsp_tenth : list (crsp_row float) :=
  [ {| c_permno := 1; c_date := ym_of 2020 1; c_shrcd := Some 10; c_exchcd := Some 1;
       c_ret := Some 0.1%float; c_shrout := Some 100%float; c_prc := Some 10%float |} ].

(** * Facts *)

(** ** The lag, row by row *)

Section LagFacts.
Context {F : Type} {N : Num F}.

Lemma attach_lme_tail (t : list (stock F)) :
  forall (p : stock F) (last : Z -> option F),
    last (permno p) = Some (me p) ->
    map3 (fun s valid shifted =>
            {| row := s; lme := if valid : bool then shifted else None |})
         t
         (map2 (fun v o => if o : bool then false else v)
            (map (fun d => match d with Some 1 => true | _ => false end)
               (map2 (fun x prev => Some (x - prev)) (map daten t) (map daten (p :: t))))
            (map (fun d => match d with Some 0 => false | _ => true end)
               (map2 (fun x prev => Some (x - prev)) (map permno t) (map permno (p :: t)))))
         (groupby_shift_from last (map permno t) (map me t))
    = scan_lme (Some p) t.
Proof.
  induction t as [|s t IH]; intros p last Hlast; [reflexivity|].
  cbn [map map2 map3 groupby_shift_from scan_lme lag_of].
  f_equal.
  - f_equal.
    destruct (permno s - permno p =? 0) eqn:Hp.
    + apply Z.eqb_eq in Hp.
      assert (Hs : permno s = permno p) by lia.
      rewrite Hs, Hlast.
      replace (permno p - permno p) with 0 by lia.
      destruct (daten s - daten p) as [|[ | | ]|]; reflexivity.
    + destruct (permno s - permno p) as [| |]; [discriminate| |];
        destruct (daten s - daten p) as [|[ | | ]|]; reflexivity.
  - apply IH. now rewrite Z.eqb_refl.
Qed.

Lemma attach_lme_scan (rows : list (stock F)) :
  attach_lme rows = scan_lme None rows.
Proof.
  destruct rows as [|s t]; [reflexivity|].
  unfold attach_lme, IsValidLag, groupby_shift, diff1.
  cbn [map map2 map3 groupby_shift_from scan_lme lag_of].
  f_equal. apply attach_lme_tail. now rewrite Z.eqb_refl.
Qed.

Lemma scan_lme_rows (rows : list (stock F)) :
  forall prev, map (@row F) (scan_lme prev rows) = rows.
Proof. induction rows as [|s t IH]; intros prev; cbn; [|rewrite IH]; reflexivity. Qed.

Lemma scan_lme_nth (rows : list (stock F)) :
  forall prev i r,
    nth_error (scan_lme prev rows) i = Some r ->
    lme r = lag_of (match i with
                    | O => prev
                    | S j => option_map (@row F) (nth_error (scan_lme prev rows) j)
                    end) (row r).
Proof.
  induction rows as [|s t IH]; intros prev i r H.
  - destruct i; discriminate.
  - destruct i as [|i]; cbn in H.
    + now inversion H.
    + apply IH in H. rewrite H. destruct i; reflexivity.
Qed.

(** Every row of the table stands at the index the scan gave it a lag for. *)
Lemma attach_lme_nth (rows : list (stock F)) (i : nat) (r : lagged F) :
  nth_error (attach_lme rows) i = Some r ->
  lme r = lag_of (match i with
                  | O => None
                  | S j => option_map (@row F) (nth_error (attach_lme rows) j)
                  end) (row r).
Proof. rewrite attach_lme_scan. apply scan_lme_nth. Qed.

Lemma lag_of_Some (p s : stock F) (v : F) :
  lag_of (Some p) s = Some v <->
  permno p = permno s /\ daten p = daten s - 1 /\ v = me p.
Proof.
  unfold lag_of.
  destruct (permno s - permno p =? 0) eqn:Hp; destruct (daten s - daten p =? 1) eqn:Hd;
    cbn; rewrite ?Z.eqb_eq, ?Z.eqb_neq in *; split;
    try (intros [= <-]; repeat split; lia);
    try (intros (? & ? & ->); reflexivity);
    try discriminate; intros (? & ? & ?); lia.
Qed.
End LagFacts.

(** ** Binary64 *)

Lemma float_neq_of_eqb (x y : float) :
  PrimFloat.eqb y y = true -> PrimFloat.eqb x y = false -> x <> y.
Proof. intros Hy Hx E. rewrite E in Hx. congruence. Qed.

Lemma float_is_nan_spec (x : float) :
  PrimFloat.is_nan x = true <-> Prim2SF x = S754_nan.
Proof.
  unfold PrimFloat.is_nan. rewrite FloatAxioms.eqb_spec.
  destruct (Prim2SF x) as [s| s| |s m e]; cbn.
  - split; discriminate.
  - destruct s; split; discriminate.
  - split; reflexivity.
  - unfold SFeqb, SFcompare. rewrite Z.compare_refl.
    destruct s; cbn;
      change (PosDef.Pos.compare_cont Eq m m) with (Pos.compare m m);
      rewrite Pos.compare_refl; cbn; split; discriminate.
Qed.

(** A NaN operand makes a difference NaN. *)
Lemma float_sub_nan_l (x y : float) :
  PrimFloat.is_nan x = true -> PrimFloat.is_nan (PrimFloat.sub x y) = true.
Proof.
  rewrite !float_is_nan_spec. intros H.
  rewrite sub_spec, H. reflexivity.
Qed.

(** The two zeros. *)
Lemma float_zero_of_spec (x : float) (s : bool) :
  Prim2SF x = S754_zero s -> x = if s then neg_zero else 0%float.
Proof.
  intros H. apply Prim2SF_inj. rewrite H. destruct s; reflexivity.
Qed.

Lemma float_zero_not_nan (x : float) :
  x = 0%float \/ x = neg_zero -> PrimFloat.is_nan x = false.
Proof. intros [->| ->]; reflexivity. Qed.

Lemma float_add_zeros (x y : float) :
  x = 0%float \/ x = neg_zero -> y = 0%float \/ y = neg_zero ->
  PrimFloat.add x y = 0%float \/ PrimFloat.add x y = neg_zero.
Proof. intros [->| ->] [->| ->]; vm_compute; auto. Qed.

(** Zero times a number is a zero, or NaN when the number is infinite or
    NaN. *)
Lemma float_mul_zero_l (x y : float) :
  x = 0%float \/ x = neg_zero ->
  PrimFloat.is_nan (PrimFloat.mul x y) = true
  \/ PrimFloat.mul x y = 0%float \/ PrimFloat.mul x y = neg_zero.
Proof.
  intros Hx.
  assert (Hs : exists s, Prim2SF x = S754_zero s)
    by (destruct Hx as [->| ->]; eexists; reflexivity).
  destruct Hs as [s Hs].
  pose proof (mul_spec x y) as H. rewrite Hs in H.
  destruct (Prim2SF y) as [t| t| |t m e]; cbn in H.
  - right. apply float_zero_of_spec in H. destruct (xorb s t); auto.
  - left. now apply float_is_nan_spec.
  - left. now apply float_is_nan_spec.
  - right. apply float_zero_of_spec in H. destruct (xorb s t); auto.
Qed.

(** *** When a product is NaN *)

Lemma shr_1_nonneg (mrs : shr_record) : 0 <= shr_m mrs -> 0 <= shr_m (shr_1 mrs).
Proof. destruct mrs as [m r s]. destruct m as [|[p|p|]|p]; cbn; lia. Qed.

Lemma iter_shr_1_nonneg (p : positive) :
  forall mrs, 0 <= shr_m mrs -> 0 <= shr_m (SpecFloat.iter_pos shr_1 p mrs).
Proof.
  induction p as [p IH|p IH|]; intros mrs H; cbn.
  - apply IH, IH, shr_1_nonneg, H.
  - apply IH, IH, H.
  - apply shr_1_nonneg, H.
Qed.

Lemma shr_fexp_nonneg (m e : Z) (l : location) :
  0 <= m -> 0 <= shr_m (fst (shr_fexp prec emax m e l)).
Proof.
  intros H. unfold shr_fexp, shr.
  assert (Hm : shr_m (shr_record_of_loc m l) = m) by (destruct l as [|[]]; reflexivity).
  destruct (fexp prec emax (Zdigits2 m + e) - e); cbn [fst]; try lia.
  apply iter_shr_1_nonneg. lia.
Qed.

Lemma round_nearest_even_nonneg (m : Z) (l : location) :
  0 <= m -> 0 <= round_nearest_even m l.
Proof.
  intros H. destruct l as [|[]]; cbn; try lia. destruct (Z.even m); lia.
Qed.

(** Rounding a nonnegative mantissa never gives NaN. *)
Lemma binary_round_aux_not_nan (s : bool) (m e : Z) (l : location) :
  0 <= m -> binary_round_aux prec emax s m e l <> S754_nan.
Proof.
  intros H. unfold binary_round_aux.
  pose proof (shr_fexp_nonneg e l H) as H1.
  destruct (shr_fexp prec emax m e l) as [mrs' e']. cbn [fst] in H1.
  pose proof (shr_fexp_nonneg e' loc_Exact
                (round_nearest_even_nonneg (loc_of_shr_record mrs') H1)) as H2.
  destruct (shr_fexp prec emax _ e' loc_Exact) as [mrs'' e'']. cbn [fst] in H2.
  destruct (shr_m mrs'') as [|p|p]; [discriminate| |lia].
  destruct (e'' <=? emax - prec); discriminate.
Qed.

Lemma SFmul_nan_iff (x y : spec_float) :
  x <> S754_nan -> y <> S754_nan ->
  (SF64mul x y = S754_nan <->
   ((exists s, x = S754_infinity s) /\ (exists s, y = S754_zero s))
   \/ ((exists s, x = S754_zero s) /\ (exists s, y = S754_infinity s))).
Proof.
  intros Hx Hy.
  destruct x as [sx|sx| |sx mx ex]; [| |contradiction|];
    (destruct y as [sy|sy| |sy my ey]; [| |contradiction|]);
    unfold SF64mul, SFmul;
    (split;
     [ first [ discriminate
             | intros _; solve [eauto 8]
             | intros E; exfalso; revert E; apply binary_round_aux_not_nan; lia ]
     | first [ reflexivity
             | intros [[[? E] [? E']]|[[? E] [? E']]]; discriminate ] ]).
Qed.

Lemma float_infinite_spec (x : float) :
  PrimFloat.abs x = infinity <-> exists s, Prim2SF x = S754_infinity s.
Proof.
  split.
  - intros H. apply (f_equal Prim2SF) in H. rewrite abs_spec in H.
    destruct (Prim2SF x) as [s|s| |s m e]; try discriminate. eauto.
  - intros [s H]. apply Prim2SF_inj. rewrite abs_spec, H. reflexivity.
Qed.

Lemma float_zero_spec (x : float) :
  x = 0%float \/ x = neg_zero <-> exists s, Prim2SF x = S754_zero s.
Proof.
  split.
  - intros [->| ->]; eexists; reflexivity.
  - intros [s H]. apply float_zero_of_spec in H. destruct s; auto.
Qed.

(** [x == 0] holds of the two zeros and of nothing else. *)
Lemma float_eqb_zero_spec (x : float) :
  PrimFloat.eqb x 0%float = true <-> x = 0%float \/ x = neg_zero.
Proof.
  rewrite float_zero_spec, FloatAxioms.eqb_spec.
  change (Prim2SF 0%float) with (S754_zero false).
  destruct (Prim2SF x) as [s|s| |s m e]; cbn.
  - split; eauto.
  - destruct s; (split; [discriminate|intros [? E]; discriminate]).
  - split; [discriminate|intros [? E]; discriminate].
  - destruct s; (split; [discriminate|intros [? E]; discriminate]).
Qed.

Lemma float_not_nan_spec (x : float) :
  PrimFloat.is_nan x = false <-> Prim2SF x <> S754_nan.
Proof.
  rewrite <- float_is_nan_spec. destruct (PrimFloat.is_nan x); split; congruence.
Qed.

(** The product of two numbers, neither of them NaN, is NaN exactly when
    one is infinite and the other is a zero. *)
Lemma float_mul_nan_iff (x y : float) :
  PrimFloat.is_nan x = false -> PrimFloat.is_nan y = false ->
  (PrimFloat.is_nan (PrimFloat.mul x y) = true <->
   (PrimFloat.abs x = infinity /\ (y = 0%float \/ y = neg_zero))
   \/ ((x = 0%float \/ x = neg_zero) /\ PrimFloat.abs y = infinity)).
Proof.
  intros Hx Hy. apply float_not_nan_spec in Hx, Hy.
  rewrite float_is_nan_spec, mul_spec, (SFmul_nan_iff Hx Hy).
  now rewrite !float_infinite_spec, !float_zero_spec.
Qed.

(** *** The product by one is exact *)

Lemma canonical_exponent (m : positive) (e : Z) :
  SpecFloat.bounded prec emax m e = true ->
  fexp prec emax (Zpos (digits2_pos m) + e) = e /\ e <= emax - prec.
Proof.
  unfold SpecFloat.bounded, canonical_mantissa. rewrite andb_true_iff, Z.eqb_eq, Z.leb_le. tauto.
Qed.

(** Rounding [m * 2^52] at exponent [e - 52] gives back [m] at exponent
    [e]: the 52 bits shifted out are all 0. *)
Lemma round_times_one (s : bool) (m : positive) (e : Z) :
  SpecFloat.bounded prec emax m e = true ->
  binary_round_aux prec emax s (Zpos (4503599627370496 * m)) (e + -52) loc_Exact
  = S754_finite s m e.
Proof.
  intros H. apply canonical_exponent in H. destruct H as [Hc He].
  unfold binary_round_aux, shr_fexp.
  assert (Hd : Zdigits2 (Zpos (4503599627370496 * m)) + (e + -52)
               = Zpos (digits2_pos m) + e).
  { cbn -[Z.add]. rewrite !Pos2Z.inj_succ. lia. }
  rewrite Hd, Hc.
  replace (e - (e + -52)) with 52 by lia.
  cbn -[fexp Z.add Z.sub Z.leb].
  replace (e + -52 + 52) with e by lia.
  rewrite Hc. replace (e - e) with 0 by lia.
  cbn -[Z.leb Z.sub].
  apply Z.leb_le in He. now rewrite He.
Qed.

Lemma float_mul_one_r (x : float) : PrimFloat.mul x 1 = x.
Proof.
  apply Prim2SF_inj. rewrite mul_spec.
  change (Prim2SF 1) with (S754_finite false 4503599627370496 (-52)).
  pose proof (Prim2SF_valid x) as Hv.
  destruct (Prim2SF x) as [s| s| |s m e]; unfold SF64mul, SFmul;
    rewrite ?xorb_false_r; try reflexivity.
  rewrite Pos.mul_comm. now apply round_times_one.
Qed.

Lemma float_mul_one_l (x : float) : PrimFloat.mul 1 x = x.
Proof.
  apply Prim2SF_inj. rewrite mul_spec.
  change (Prim2SF 1) with (S754_finite false 4503599627370496 (-52)).
  pose proof (Prim2SF_valid x) as Hv.
  destruct (Prim2SF x) as [s| s| |s m e]; unfold SF64mul, SFmul;
    cbn [xorb]; try reflexivity.
  rewrite Z.add_comm. now apply round_times_one.
Qed.

(** ** numpy's sum *)

Section SumFacts.
Context {F : Type} {N : Num F}.

(** The recursion of the pairwise sum never runs out of fuel: any fuel of
    at least the length of the array gives the same sum. *)
Lemma pairwise_sum_fuel (fuel : nat) :
  forall (fuel' : nat) (l : list F),
    (length l <= fuel)%nat -> (length l <= fuel')%nat ->
    pairwise_sum_upto fuel l = pairwise_sum_upto fuel' l.
Proof.
  induction fuel as [|fuel IH]; intros fuel' l H H'.
  - destruct l; [|cbn in H; lia]. destruct fuel'; reflexivity.
  - destruct fuel' as [|fuel'].
    + destruct l; [|cbn in H'; lia]. reflexivity.
    + cbn [pairwise_sum_upto].
      destruct (length l <=? 128)%nat eqn:E; [reflexivity|].
      apply Nat.leb_gt in E.
      set (n2 := (length l / 2 - (length l / 2) mod 8)%nat).
      assert (Hn2 : (0 < n2 < length l)%nat).
      { unfold n2.
        pose proof (Nat.mod_upper_bound (length l / 2) 8 ltac:(lia)).
        pose proof (Nat.div_mod_eq (length l) 2).
        pose proof (Nat.mod_upper_bound (length l) 2 ltac:(lia)).
        lia. }
      f_equal; apply IH; rewrite ?length_firstn, ?length_skipn; lia.
Qed.

(** A property of 0 that the addition keeps is kept by the sum. *)
Variable P : F -> Prop.
Hypothesis P_add : forall a b, P a -> P b -> P (nadd a b).

Lemma sum_serial_keeps (l : list F) :
  forall init, P init -> Forall P l -> P (sum_serial init l).
Proof.
  unfold sum_serial.
  induction l as [|x t IH]; intros init Hi Hl; cbn; [exact Hi|].
  inversion Hl; subst. apply IH; auto.
Qed.

Lemma add_lanes_keeps (n : nat) :
  forall (l : list F) (r : lanes),
    (length l <= n)%nat -> Forall P l ->
    P (r0 r) -> P (r1 r) -> P (r2 r) -> P (r3 r) ->
    P (r4 r) -> P (r5 r) -> P (r6 r) -> P (r7 r) ->
    P (add_pairs (fst (add_lanes r l))) /\ Forall P (snd (add_lanes r l)).
Proof.
  induction n as [n IH] using lt_wf_ind. intros l r Hn Hl H0 H1 H2 H3 H4 H5 H6 H7.
  destruct l as [|a0 [|a1 [|a2 [|a3 [|a4 [|a5 [|a6 [|a7 t]]]]]]]];
    try (cbn [add_lanes fst snd]; split; [unfold add_pairs; auto 7|exact Hl]).
  cbn [add_lanes]. cbn [length] in Hn.
  repeat match goal with
         | H : Forall P (_ :: _) |- _ => inversion H; subst; clear H
         end.
  apply (IH (length t)); cbn; auto; lia.
Qed.

Lemma sum_block_keeps (l : list F) :
  P (nofZ 0) -> Forall P l -> P (sum_block l).
Proof.
  intros Hz Hl. unfold sum_block.
  destruct l as [|a0 [|a1 [|a2 [|a3 [|a4 [|a5 [|a6 [|a7 t]]]]]]]];
    try (apply sum_serial_keeps; assumption).
  repeat match goal with
         | H : Forall P (_ :: _) |- _ => inversion H; subst; clear H
         end.
  match goal with
  | |- context [add_lanes ?r t] =>
      pose proof (@add_lanes_keeps (length t) t r (le_n _)) as H
  end.
  cbn in H. destruct (add_lanes _ t) as [r rest]. cbn [fst snd] in H.
  destruct H as [Hr Hrest]; auto.
  now apply sum_serial_keeps.
Qed.

Lemma pairwise_sum_upto_keeps (fuel : nat) :
  forall l : list F, P (nofZ 0) -> Forall P l -> P (pairwise_sum_upto fuel l).
Proof.
  induction fuel as [|fuel IH]; intros l Hz Hl; cbn [pairwise_sum_upto];
    destruct (length l <=? 128)%nat; try (now apply sum_block_keeps).
  set (n2 := (length l / 2 - (length l / 2) mod 8)%nat).
  rewrite <- (firstn_skipn n2 l) in Hl. apply Forall_app in Hl.
  destruct Hl as [Hf Hs]. apply P_add; apply IH; assumption.
Qed.

Lemma np_sum_keeps (l : list F) :
  P (nofZ 0) -> Forall P l -> P (np_sum l).
Proof.
  intros Hz Hl. unfold np_sum, pairwise_sum.
  apply P_add; [exact Hz|now apply pairwise_sum_upto_keeps].
Qed.
End SumFacts.

(** numpy's sum in binary64, next to the sum that adds the cells one by
    one: eight and a thousand cells of 0.1; and a NaN cell, which adds a 0 in
    its place, so that the cells after it fall in other lanes. *)
Lemma np_sum_binary64_examples :
  np_sum (repeat 0.1%float 8) = 0.8%float
  /\ sum_serial 0%float (repeat 0.1%float 8) = 0.7999999999999999%float
  /\ np_sum (repeat 0.1%float 1000) = 100.00000000000001%float
  /\ sum_serial 0%float (repeat 0.1%float 1000) = 99.9999999999986%float
  /\ nansum (repeat 0.1%float 7 ++ [0.2%float]) = 0.9%float
  /\ nansum (repeat 0.1%float 7 ++ [nan; 0.2%float]) = 0.9000000000000001%float.
Proof. repeat split; vm_compute; reflexivity. Qed.

(** ** Sums in exact arithmetic *)

Lemma filter_all {A : Type} (l : list A) : filter (fun _ => true) l = l.
Proof. induction l as [|x t IH]; cbn; [|rewrite IH]; reflexivity. Qed.

Lemma Rsum_app (l l' : list R) : Rsum (l ++ l') = (Rsum l + Rsum l')%R.
Proof. induction l as [|x t IH]; cbn; [|rewrite IH]; ring. Qed.

Lemma fold_left_Rplus (l : list R) : forall a : R, fold_left Rplus l a = (a + Rsum l)%R.
Proof.
  induction l as [|x t IH]; intros a; cbn.
  - ring.
  - rewrite IH. ring.
Qed.

Lemma sum_serial_R (init : R) (l : list R) : sum_serial init l = (init + Rsum l)%R.
Proof. apply fold_left_Rplus. Qed.

Lemma add_lanes_R (n : nat) :
  forall (l : list R) (r : lanes),
    (length l <= n)%nat ->
    (add_pairs (fst (add_lanes r l)) + Rsum (snd (add_lanes r l))
     = add_pairs r + Rsum l)%R.
Proof.
  induction n as [n IH] using lt_wf_ind. intros l r Hn.
  destruct l as [|a0 [|a1 [|a2 [|a3 [|a4 [|a5 [|a6 [|a7 t]]]]]]]];
    try reflexivity.
  cbn [add_lanes]. cbn [length] in Hn.
  rewrite (IH (length t)); [|lia|lia].
  unfold add_pairs. cbn. ring.
Qed.

Lemma sum_block_R (l : list R) : sum_block l = Rsum l.
Proof.
  unfold sum_block.
  destruct l as [|a0 [|a1 [|a2 [|a3 [|a4 [|a5 [|a6 [|a7 t]]]]]]]];
    try (rewrite sum_serial_R; cbn; ring).
  pose proof (@add_lanes_R (length t) t
                {| r0 := a0; r1 := a1; r2 := a2; r3 := a3;
                   r4 := a4; r5 := a5; r6 := a6; r7 := a7 |} (le_n _)) as H.
  destruct (add_lanes _ t) as [r rest]. cbn [fst snd] in H.
  rewrite sum_serial_R, H. unfold add_pairs. cbn. ring.
Qed.

Lemma pairwise_sum_upto_R (fuel : nat) :
  forall l : list R, pairwise_sum_upto fuel l = Rsum l.
Proof.
  induction fuel as [|fuel IH]; intros l; cbn [pairwise_sum_upto];
    destruct (length l <=? 128)%nat; try apply sum_block_R.
  rewrite !IH. cbn. rewrite <- Rsum_app, firstn_skipn. reflexivity.
Qed.

Lemma np_sum_R (l : list R) : np_sum l = Rsum l.
Proof.
  unfold np_sum, pairwise_sum. rewrite pairwise_sum_upto_R. cbn. ring.
Qed.

Lemma zero_fill_R (l : list R) : zero_fill l = l.
Proof. unfold zero_fill. cbn. apply map_id. Qed.

Lemma nansum_R (l : list R) : nansum l = Rsum l.
Proof. unfold nansum. now rewrite zero_fill_R, np_sum_R. Qed.

Lemma count_R (l : list R) : count l = Z.of_nat (length l).
Proof. unfold count. cbn. now rewrite filter_all. Qed.


Lemma Rsum_nonneg (l : list R) : Forall (fun x => 0 <= x)%R l -> (0 <= Rsum l)%R.
Proof.
  induction 1 as [|x t Hx _ IH]; cbn; lra.
Qed.

Lemma Rsum_pos (l : list R) :
  Forall (fun x => 0 <= x)%R l -> Exists (fun x => 0 < x)%R l -> (0 < Rsum l)%R.
Proof.
  intros Hall Hex. induction Hex as [x t Hx|x t _ IH]; inversion Hall; subst; cbn.
  - pose proof (Rsum_nonneg H2). lra.
  - specialize (IH H2). lra.
Qed.

Lemma mean_R (l : list R) : mean l = Rmean l.
Proof.
  unfold mean, Rmean. rewrite nansum_R, count_R. cbn.
  now rewrite <- INR_IZR_INZ.
Qed.

Lemma std_R (l : list R) :
  std l = if (length l <? 2)%nat then None else Some (sample_std l).
Proof.
  unfold std. rewrite count_R.
  destruct (length l <? 2)%nat eqn:E.
  - apply Nat.ltb_lt in E.
    replace (Z.of_nat (length l) <=? 1) with true
      by (symmetry; apply Z.leb_le; lia).
    reflexivity.
  - apply Nat.ltb_ge in E.
    replace (Z.of_nat (length l) <=? 1) with false
      by (symmetry; apply Z.leb_gt; lia).
    f_equal. unfold sample_std. rewrite np_sum_R, mean_R. cbn.
    f_equal. f_equal.
    + f_equal. apply map_ext. intros x. unfold Rsqr. ring.
    + rewrite minus_IZR, <- INR_IZR_INZ. reflexivity.
Qed.

(** ** C2: the forward fill of the share and exchange codes *)

Lemma ffill_from_present {A : Type} (l : list (option A)) :
  forall (last : option A) (i : nat) (x : A),
    nth_error l i = Some (Some x) -> nth_error (ffill_from last l) i = Some (Some x).
Proof.
  induction l as [|c t IH]; intros last i x H; destruct i as [|i]; try discriminate.
  - cbn in *. now inversion H.
  - cbn in *. now apply IH.
Qed.

(** A missing cell below the first row takes the filled value of the row
    right above it, whatever that row is. *)
Lemma ffill_from_missing {A : Type} (l : list (option A)) :
  forall (last : option A) (j : nat),
    nth_error l (S j) = Some None ->
    nth_error (ffill_from last l) (S j) = nth_error (ffill_from last l) j.
Proof.
  induction l as [|x t IH]; intros last j H; [discriminate|].
  cbn in H. cbn [ffill_from nth_error].
  destruct j as [|j].
  - destruct t as [|y t']; [discriminate|]. cbn in H. inversion H; subst y.
    reflexivity.
  - now apply IH.
Qed.

(** C2. The fill runs down the whole merged table, not security by
    security: the delisting row of security 2, which has no code of its own
    and no earlier row, receives the share code 10 and the exchange code 1 of
    security 1. *)
Theorem ffill_takes_codes_of_previous_security :
  let ms := merge_outer (clean_crsp crsp_one_listed) (clean_dlret dlret_other_security) in
  map (fun m => (m_permno m, m_shrcd m, m_exchcd m)) ms
  = [(1, Some 10, Some 1); (2, None, None)]
  /\ map (fun s => (permno s, shrcd s, exchcd s)) (stocks_filled ms)
    = [(1, Some 10, Some 1); (2, Some 10, Some 1)].
Proof. split; vm_compute; reflexivity. Qed.

(** ** C3: the total return *)

(** In binary64 neither identity is exact: with a plain return of 0.1 and no
    delisting the total return is 0.10000000000000009, in the formula and in
    the [ret] column of the table, and likewise for a delisting return of 0.1
    with no plain return. *)
Lemma total_return_binary64_rounds :
  total_return 0.1%float 0%float = 0.10000000000000009%float
  /\ total_return 0.1%float 0%float <> 0.1%float
  /\ total_return 0%float 0.1%float <> 0.1%float
  /\ map (fun r => ret (row r)) (enriched crsp_tenth [])
     = [0.10000000000000009%float].
Proof.
  split; [vm_compute; reflexivity|].
  split; [apply float_neq_of_eqb; vm_compute; reflexivity|].
  split; [apply float_neq_of_eqb; vm_compute; reflexivity|].
  vm_compute. reflexivity.
Qed.

(** In binary64 the product by [1 + 0] is exact, so with a zero or absent
    delisting return the total return is [(1 + ret) - 1], the sum and the
    difference each rounded; likewise with a zero or absent plain return. *)
Lemma total_return_binary64_zero_dlret (r : float) :
  total_return r 0%float = PrimFloat.sub (PrimFloat.add 1 r) 1.
Proof.
  change (total_return r 0%float)
    with (PrimFloat.sub (PrimFloat.mul (PrimFloat.add 1 r) 1) 1).
  now rewrite float_mul_one_r.
Qed.

Lemma total_return_binary64_zero_ret (d : float) :
  total_return 0%float d = PrimFloat.sub (PrimFloat.add 1 d) 1.
Proof.
  change (total_return 0%float d)
    with (PrimFloat.sub (PrimFloat.mul 1 (PrimFloat.add 1 d)) 1).
  now rewrite float_mul_one_l.
Qed.

(** C3 (amended). In any arithmetic the total return of a row is
    [(1 + ret) * (1 + dlret) - 1] on the filled cells.  In exact arithmetic
    it equals the plain return when the delisting return is 0 or absent, and
    the delisting return when the plain return is absent.  In binary64 it is
    in these cases [(1 + return) - 1], the sum and the difference each
    rounded: -0.5 for a delisting return of -0.5, but 0.10000000000000009
    for a plain return of 0.1. *)
Theorem total_return_exact_identities :
  (forall (F : Type) (N : Num F) (m : merged F) (sc ec : option Z),
      ret (fill_row m sc ec)
      = nsub (nmul (nadd (nofZ 1) (fillna (nofZ 0) (m_ret m)))
                   (nadd (nofZ 1) (fillna (nofZ 0) (m_dlret m))))
             (nofZ 1))
  /\ (forall r : R, total_return r 0%R = r /\ total_return r (fillna 0%R None) = r)
  /\ (forall d : R, total_return 0%R d = d /\ total_return (fillna 0%R None) d = d)
  /\ (forall (c : crsp_row R) (sc ec : option Z),
        ret (fill_row (of_both c None) sc ec) = fillna 0%R (c_ret c)
        /\ ret (fill_row (of_both c (Some 0%R)) sc ec) = fillna 0%R (c_ret c))
  /\ (forall (d : dl_row R) (sc ec : option Z),
        ret (fill_row (of_right d) sc ec) = fillna 0%R (d_dlret d))
  /\ (forall r : float,
        total_return r 0%float = PrimFloat.sub (PrimFloat.add 1 r) 1
        /\ total_return r (fillna 0%float None) = PrimFloat.sub (PrimFloat.add 1 r) 1)
  /\ (forall d : float,
        total_return 0%float d = PrimFloat.sub (PrimFloat.add 1 d) 1
        /\ total_return (fillna 0%float None) d = PrimFloat.sub (PrimFloat.add 1 d) 1)
  /\ (forall (c : crsp_row float) (sc ec : option Z),
        ret (fill_row (of_both c None) sc ec)
        = PrimFloat.sub (PrimFloat.add 1 (fillna 0%float (c_ret c))) 1
        /\ ret (fill_row (of_both c (Some 0%float)) sc ec)
           = PrimFloat.sub (PrimFloat.add 1 (fillna 0%float (c_ret c))) 1)
  /\ (forall (d : dl_row float) (sc ec : option Z),
        ret (fill_row (of_right d) sc ec)
        = PrimFloat.sub (PrimFloat.add 1 (fillna 0%float (d_dlret d))) 1)
  /\ total_return 0%float (-0.5)%float = (-0.5)%float
  /\ total_return 0.1%float 0%float = 0.10000000000000009%float.
Proof.
  split; [intros F N m sc ec; reflexivity|].
  split; [intros r; split; unfold total_return; cbn; ring|].
  split; [intros d; split; unfold total_return; cbn; ring|].
  split; [intros c sc ec; split; cbn; unfold total_return; cbn; ring|].
  split; [intros d sc ec; cbn; unfold total_return; cbn; ring|].
  split; [intros r; split; apply total_return_binary64_zero_dlret|].
  split; [intros d; split; apply total_return_binary64_zero_ret|].
  split; [intros c sc ec; split; apply total_return_binary64_zero_dlret|].
  split; [intros d sc ec; apply total_return_binary64_zero_ret|].
  split; vm_compute; reflexivity.
Qed.

(** The delisting scenario in binary64: the delisting month of security 1
    has no observation, its total return is the delisting return -0.5, and
    the row, whose market equity is 0, still gets the January market equity
    800 as its lag. *)
Lemma delisting_scenario_binary64 :
  map (fun r => (permno (row r), month (date (row r)), ret (row r), me (row r), lme r))
      (enriched crsp_delisting dlret_delisting)
  = [ (1, 1, 0.25%float, 800%float, None);
      (1, 2, (-0.5)%float, 0%float, Some 800%float);
      (2, 1, 0.5%float, 40%float, None);
      (2, 2, 0.25%float, 50%float, Some 40%float);
      (2, 3, (-0.5)%float, 25%float, Some 50%float) ].
Proof. vm_compute. reflexivity. Qed.

(** ** C6: the share-code and exchange filter *)

(** C6. Filtering an already filtered panel changes nothing. *)
Theorem share_exchange_filter_idempotent
    {F : Type} {N : Num F} (panel : list (lagged F)) :
  share_exchange_filter (share_exchange_filter panel) = share_exchange_filter panel.
Proof.
  unfold share_exchange_filter.
  induction panel as [|r t IH]; [reflexivity|].
  cbn. destruct (common_on_major r) eqn:Hr; [|exact IH].
  cbn. rewrite Hr, IH. reflexivity.
Qed.

(** ** Sorting, duplicates and the inner merge of keys *)

Lemma ym_eqb_eq (a b : ym) : ym_eqb a b = true <-> a = b.
Proof.
  destruct a as [ya ma], b as [yb mb]. unfold ym_eqb. cbn.
  rewrite andb_true_iff, !Z.eqb_eq. split.
  - intros [-> ->]. reflexivity.
  - intros [= -> ->]. auto.
Qed.

Lemma ym_eqb_refl (a : ym) : ym_eqb a a = true.
Proof. now apply ym_eqb_eq. Qed.

Section SortFacts.
Context {A : Type} (leb : A -> A -> bool).

Lemma insert_perm (x : A) (l : list A) : Permutation (insert leb x l) (x :: l).
Proof.
  induction l as [|y t IH]; cbn; [reflexivity|].
  destruct (leb x y); [reflexivity|].
  rewrite IH. apply perm_swap.
Qed.

Lemma sort_values_perm (l : list A) : Permutation (sort_values leb l) l.
Proof.
  induction l as [|x t IH]; cbn; [reflexivity|].
  rewrite insert_perm. now apply perm_skip.
Qed.

Lemma sort_values_In (l : list A) (x : A) : In x (sort_values leb l) <-> In x l.
Proof.
  split; apply Permutation_in; [|symmetry]; apply sort_values_perm.
Qed.

Lemma sort_values_NoDup (l : list A) : NoDup l -> NoDup (sort_values leb l).
Proof. apply Permutation_NoDup. symmetry. apply sort_values_perm. Qed.
End SortFacts.

Lemma drop_duplicates_In (l : list ym) (x : ym) :
  In x (drop_duplicates ym_eqb l) <-> In x l.
Proof.
  induction l as [|y t IH]; cbn; [reflexivity|].
  rewrite filter_In, IH. split.
  - intros [H|[H _]]; auto.
  - intros [H|H]; [auto|].
    destruct (ym_eqb y x) eqn:E.
    + left. now apply ym_eqb_eq.
    + right. auto.
Qed.

Lemma drop_duplicates_NoDup (l : list ym) : NoDup (drop_duplicates ym_eqb l).
Proof.
  induction l as [|y t IH]; cbn; constructor.
  - rewrite filter_In, ym_eqb_refl. intros [_ H]. discriminate.
  - now apply NoDup_filter.
Qed.

Lemma merge_inner_keys_In (left right : list ym) (k : ym) :
  In k (merge_inner_keys left right) <-> In k left /\ In k right.
Proof.
  unfold merge_inner_keys. rewrite in_flat_map. split.
  - intros (x & Hx & H). apply in_map_iff in H. destruct H as (y & -> & Hy).
    apply filter_In in Hy. destruct Hy as [Hy E].
    apply ym_eqb_eq in E. subst y. auto.
  - intros [Hl Hr]. exists k. split; [exact Hl|].
    apply in_map_iff. exists k. split; [reflexivity|].
    apply filter_In. split; [exact Hr|apply ym_eqb_refl].
Qed.

Lemma filter_key_NoDup (right : list ym) (k : ym) :
  NoDup right ->
  map (fun _ : ym => k) (filter (ym_eqb k) right)
  = if existsb (ym_eqb k) right then [k] else [].
Proof.
  induction 1 as [|y t Hy Hnd IH]; cbn; [reflexivity|].
  destruct (ym_eqb k y) eqn:E; cbn.
  - apply ym_eqb_eq in E. subst y.
    rewrite IH. destruct (existsb (ym_eqb k) t) eqn:Ex; [|reflexivity].
    apply existsb_exists in Ex. destruct Ex as (z & Hz & Ez).
    apply ym_eqb_eq in Ez. subst z. contradiction.
  - exact IH.
Qed.

Lemma merge_inner_keys_NoDup (left right : list ym) :
  NoDup left -> NoDup right -> NoDup (merge_inner_keys left right).
Proof.
  intros Hl Hr. unfold merge_inner_keys.
  induction Hl as [|x t Hx Hnd IH]; cbn; [constructor|].
  rewrite (filter_key_NoDup x Hr).
  destruct (existsb (ym_eqb x) right); cbn; [|exact IH].
  constructor; [|exact IH].
  intros H. apply (proj1 (merge_inner_keys_In t right x)) in H. tauto.
Qed.

(** ** The loop over the months *)

Section LoopFacts.
Context {F : Type} {N : Num F}.

Lemma iterrows_In {A B : Type} (body : A -> option B) (l : list A) :
  forall out o,
    iterrows body l = Some out -> In o out ->
    exists k, In k l /\ body k = Some o.
Proof.
  induction l as [|x t IH]; intros out o H Ho; cbn in H.
  - inversion H; subst. destruct Ho.
  - destruct (body x) as [y|] eqn:Hy; [|discriminate].
    destruct (iterrows body t) as [ys|] eqn:Hys; [|discriminate].
    inversion H; subst. destruct Ho as [->|Ho].
    + exists x. split; [now left|assumption].
    + destruct (IH _ _ eq_refl Ho) as (k & Hk & Hb).
      exists k. split; [now right|assumption].
Qed.

Lemma iterrows_total {A B : Type} (body : A -> option B) (l : list A) :
  (forall k, In k l -> body k <> None) -> exists out, iterrows body l = Some out.
Proof.
  induction l as [|x t IH]; intros H; cbn.
  - eauto.
  - destruct (body x) as [y|] eqn:Hy.
    + destruct IH as [ys ->]; [intros k Hk; apply H; now right|]. eauto.
    + exfalso. apply (H x); [now left|exact Hy].
Qed.

Lemma month_return_key (french : list (french_row F)) (stocks : list (panel_row F))
    (k : ym) (o : monthly_return F) :
  month_return french stocks k = Some o -> mr_ym o = k.
Proof.
  unfold month_return. destruct (rf_of french k); [|discriminate].
  intros [= <-]. destruct k. reflexivity.
Qed.

Lemma monthly_returns_keys (french : list (french_row F)) (stocks : list (panel_row F)) :
  forall l out,
    iterrows (month_return french stocks) l = Some out -> map (@mr_ym F) out = l.
Proof.
  induction l as [|x t IH]; intros out H; cbn in H.
  - inversion H. reflexivity.
  - destruct (month_return french stocks x) as [y|] eqn:Hy; [|discriminate].
    destruct (iterrows _ t) as [ys|] eqn:Hys; [|discriminate].
    inversion H; subst. cbn. f_equal; [now apply month_return_key in Hy|now apply IH].
Qed.

Lemma rf_of_present (french : list (french_row F)) (k : ym) :
  In k (map (@f_ym F) french) -> rf_of french k <> None.
Proof.
  intros H. apply in_map_iff in H. destruct H as (f & <- & Hf).
  unfold rf_of.
  destruct (filter _ french) as [|g t] eqn:E; [|discriminate].
  assert (Hin : In f (filter (fun f0 => (f_year f0 =? year (f_ym f))
                                        && (f_month f0 =? month (f_ym f))) french)).
  { apply filter_In. split; [exact Hf|]. cbn. now rewrite !Z.eqb_refl. }
  rewrite E in Hin. destruct Hin.
Qed.

Lemma date_both_In (french : list (french_row F)) (stocks : list (panel_row F)) (k : ym) :
  In k (date_both french stocks) <->
  In k (map (@f_ym F) french) /\ In k (map (@p_ym F) stocks).
Proof.
  unfold date_both, french_date, stock_date.
  now rewrite merge_inner_keys_In, !sort_values_In, !drop_duplicates_In.
Qed.

Lemma date_both_NoDup (french : list (french_row F)) (stocks : list (panel_row F)) :
  NoDup (date_both french stocks).
Proof.
  apply merge_inner_keys_NoDup; apply sort_values_NoDup, drop_duplicates_NoDup.
Qed.

Lemma both_keys_In (mr : list (monthly_return F)) (french : list (french_row F)) (k : ym) :
  In k (map (fun x => mr_ym (fst x)) (both mr french)) <->
  In k (map (@mr_ym F) mr) /\ In k (map (@f_ym F) french).
Proof.
  unfold both. rewrite !in_map_iff. split.
  - intros ([m f] & <- & H). apply in_flat_map in H.
    destruct H as (m' & Hm' & H). apply in_map_iff in H.
    destruct H as (f' & [= <- <-] & Hf). apply filter_In in Hf.
    destruct Hf as [Hf E]. apply ym_eqb_eq in E. cbn. split.
    + exists m'. auto.
    + exists f'. auto.
  - intros [(m & <- & Hm) (f & E & Hf)].
    exists (m, f). split; [reflexivity|].
    apply in_flat_map. exists m. split; [exact Hm|].
    apply in_map. apply filter_In. split; [exact Hf|].
    apply ym_eqb_eq. now symmetry.
Qed.
End LoopFacts.

(** ** C4: the two monthly excess returns *)

(** What the loop writes in the row of a retained month. *)
Lemma retained_row_fields
    {F : Type} {N : Num F}
    (french : list (french_row F)) (stocks : list (panel_row F))
    (out : list (monthly_return F)) (o : monthly_return F) :
  monthly_returns french stocks = Some out ->
  In o out ->
  let rows := filter (fun s => (p_year s =? mr_year o) && (p_month s =? mr_month o)) stocks in
  exists r : F,
    hd_error (map (@rf F)
                (filter (fun f => (f_year f =? mr_year o) && (f_month f =? mr_month o)) french))
    = Some r
    /\ MktRF_VW o = value_monthly_return rows r
    /\ MktRF_EW o = equal_monthly_return rows r
    /\ Lagged_Mkt_Value o = start_value rows.
Proof.
  intros Hout Ho.
  destruct (@iterrows_In _ _ _ _ _ _ Hout Ho) as (k & _ & Hk).
  unfold month_return in Hk.
  destruct (rf_of french k) as [r|] eqn:Hr; [|discriminate].
  inversion Hk; subst o; clear Hk. cbn.
  exists r. repeat split. exact Hr.
Qed.



(** ** C5: the months of the aggregated output *)

(** C5. The loop never fails; its output has one row for each calendar
    month that occurs both in the analysis panel and in the reference
    series, and no other row; the compared table has the same months. *)
Theorem one_row_per_common_month
    {F : Type} {N : Num F}
    (french : list (french_row F)) (stocks : list (panel_row F)) :
  exists out : list (monthly_return F),
    monthly_returns french stocks = Some out
    /\ NoDup (map (@mr_ym F) out)
    /\ (forall k : ym,
          In k (map (@mr_ym F) out) <->
          In k (map (@f_ym F) french) /\ In k (map (@p_ym F) stocks))
    /\ (forall k : ym,
          In k (map (fun x => mr_ym (fst x)) (both out french)) <->
          In k (map (@f_ym F) french) /\ In k (map (@p_ym F) stocks)).
Proof.
  destruct (iterrows_total (month_return french stocks) (date_both french stocks))
    as [out Hout].
  { intros k Hk. apply date_both_In in Hk. destruct Hk as [Hf _].
    unfold month_return.
    apply rf_of_present in Hf.
    destruct (rf_of french k); [discriminate|contradiction]. }
  exists out. split; [exact Hout|].
  pose proof Hout as Hkeys. apply monthly_returns_keys in Hkeys.
  split; [|split].
  - rewrite Hkeys. apply date_both_NoDup.
  - intros k. rewrite Hkeys. apply date_both_In.
  - intros k. rewrite both_keys_In, Hkeys, date_both_In. tauto.
Qed.

(** ** C7: the denominator of the value-weighted return *)

Section RetainedMonths.
Context {F : Type} {N : Num F}.

Lemma retained_month_rows (french : list (french_row F)) (stocks : list (panel_row F))
    (out : list (monthly_return F)) (o : monthly_return F) :
  monthly_returns french stocks = Some out -> In o out ->
  In (mr_ym o) (date_both french stocks)
  /\ month_return french stocks (mr_ym o) = Some o.
Proof.
  intros Hout Ho.
  destruct (@iterrows_In _ _ _ _ _ _ Hout Ho) as (k & Hk & Hb).
  pose proof Hb as E. apply month_return_key in E. rewrite E. auto.
Qed.

Lemma this_stocks_nonempty (stocks : list (panel_row F)) (k : ym) :
  In k (map (@p_ym F) stocks) -> this_stocks stocks k <> [].
Proof.
  intros H. apply in_map_iff in H. destruct H as (s & <- & Hs).
  assert (Hin : In s (this_stocks stocks (p_ym s))).
  { apply filter_In. split; [exact Hs|]. cbn. now rewrite !Z.eqb_refl. }
  intros E. rewrite E in Hin. destruct Hin.
Qed.
End RetainedMonths.

Lemma lagged_value_is_sum
    (french : list (french_row R)) (stocks : list (panel_row R))
    (out : list (monthly_return R)) (o : monthly_return R) :
  monthly_returns french stocks = Some out -> In o out ->
  Lagged_Mkt_Value o = Rsum (map (@p_lme R) (this_stocks stocks (mr_ym o))).
Proof.
  intros Hout Ho.
  edestruct (@retained_month_rows R) as [_ Hb]; [exact Hout|exact Ho|].
  unfold month_return in Hb. destruct (rf_of french (mr_ym o)); [|discriminate].
  inversion Hb as [E]. rewrite <- E at 1. cbn [Lagged_Mkt_Value].
  unfold start_value. apply nansum_R.
Qed.

(** The claim fails on the notebook's arithmetic and tables: the security's
    January price is missing, so its January market equity is 0 and so is
    its lagged market equity in February; February is retained, its total
    lagged market value is 0, and the value-weighted return is NaN. *)
Lemma retained_month_with_zero_lagged_value :
  exists o : monthly_return float,
    monthly_returns french_feb (stocks crsp_gap_price []) = Some [o]
    /\ mr_ym o = ym_of 2020 2
    /\ start_value (this_stocks (stocks crsp_gap_price []) (ym_of 2020 2)) = 0%float
    /\ Lagged_Mkt_Value o = 0%float
    /\ PrimFloat.is_nan (MktRF_VW o) = true.
Proof.
  eexists. split; [vm_compute; reflexivity|].
  repeat split; vm_compute; reflexivity.
Qed.

(** *** A month whose lagged market values are all zero, in binary64 *)

Lemma float_np_sum_zeros (l : list float) :
  Forall (fun x => x = 0%float \/ x = neg_zero) l -> np_sum l = 0%float.
Proof.
  intros H. unfold np_sum, pairwise_sum.
  assert (Hz : pairwise_sum_upto (length l) l = 0%float
               \/ pairwise_sum_upto (length l) l = neg_zero).
  { apply (@pairwise_sum_upto_keeps float Num_float
             (fun x => x = 0%float \/ x = neg_zero)
             (@float_add_zeros) (length l) l); [now left|exact H]. }
  destruct Hz as [-> | ->]; reflexivity.
Qed.

Lemma float_zero_fill_zeros (l : list float) :
  Forall (fun x => PrimFloat.is_nan x = true \/ x = 0%float \/ x = neg_zero) l ->
  Forall (fun x => x = 0%float \/ x = neg_zero) (zero_fill l).
Proof.
  intros H. unfold zero_fill. apply Forall_map.
  eapply Forall_impl; [|exact H]. cbn. intros x [Hn|Hz].
  - rewrite Hn. now left.
  - now rewrite (float_zero_not_nan Hz).
Qed.

Lemma zero_lagged_values_nan_return (rows : list (panel_row float)) (r : float) :
  Forall (fun s => p_lme s = 0%float \/ p_lme s = neg_zero) rows ->
  start_value rows = 0%float
  /\ end_value rows = 0%float
  /\ PrimFloat.is_nan (value_monthly_return rows r) = true.
Proof.
  intros H.
  assert (Hs : start_value rows = 0%float).
  { unfold start_value, nansum. apply float_np_sum_zeros, float_zero_fill_zeros.
    apply Forall_map. eapply Forall_impl; [|exact H]. cbn. auto. }
  assert (He : end_value rows = 0%float).
  { unfold end_value, nansum. apply float_np_sum_zeros, float_zero_fill_zeros.
    apply Forall_map. eapply Forall_impl; [|exact H]. cbn.
    intros s Hz. now apply float_mul_zero_l. }
  split; [exact Hs|]. split; [exact He|].
  unfold value_monthly_return. rewrite Hs, He.
  apply float_sub_nan_l. reflexivity.
Qed.

(** C7 (amended). In any arithmetic a month retained in the aggregated
    output has at least one constituent row, and its total lagged market
    value is the data frame library's sum over those rows.  In exact
    arithmetic the total is positive, hence not zero, when no constituent
    has a negative lagged market value and at least one has a positive one.
    Nothing guards the division: in binary64 a retained month whose
    constituents all have a zero lagged market value ([lme == 0]) has a zero
    total and a NaN value-weighted return. *)
Theorem retained_month_total_lagged_value :
  (forall (F : Type) (N : Num F)
          (french : list (french_row F)) (stocks : list (panel_row F))
          (out : list (monthly_return F)) (o : monthly_return F),
      monthly_returns french stocks = Some out ->
      In o out ->
      this_stocks stocks (mr_ym o) <> []
      /\ Lagged_Mkt_Value o = nansum (map (@p_lme F) (this_stocks stocks (mr_ym o))))
  /\ (forall (french : list (french_row R)) (stocks : list (panel_row R))
             (out : list (monthly_return R)) (o : monthly_return R),
        monthly_returns french stocks = Some out ->
        In o out ->
        let rows := this_stocks stocks (mr_ym o) in
        Lagged_Mkt_Value o = Rsum (map (@p_lme R) rows)
        /\ (Forall (fun s => 0 <= p_lme s)%R rows ->
            Exists (fun s => 0 < p_lme s)%R rows ->
            (0 < Lagged_Mkt_Value o)%R /\ Lagged_Mkt_Value o <> 0%R))
  /\ (forall (french : list (french_row float)) (stocks : list (panel_row float))
             (out : list (monthly_return float)) (o : monthly_return float),
        monthly_returns french stocks = Some out ->
        In o out ->
        Forall (fun s => PrimFloat.eqb (p_lme s) 0%float = true)
          (this_stocks stocks (mr_ym o)) ->
        PrimFloat.eqb (Lagged_Mkt_Value o) 0%float = true
        /\ PrimFloat.is_nan (MktRF_VW o) = true).
Proof.
  split; [|split].
  - intros F N french stocks out o Hout Ho.
    edestruct (@retained_month_rows F) as [Hk Hb]; [exact Hout|exact Ho|].
    apply date_both_In in Hk. destruct Hk as [_ Hk].
    split; [now apply this_stocks_nonempty|].
    unfold month_return in Hb. destruct (rf_of french (mr_ym o)); [|discriminate].
    inversion Hb as [E]. rewrite <- E at 1. reflexivity.
  - intros french stocks out o Hout Ho rows.
    assert (Hval : Lagged_Mkt_Value o = Rsum (map (@p_lme R) rows))
      by (eapply lagged_value_is_sum; eassumption).
    split; [exact Hval|].
    intros Hall Hex.
    assert (Hpos : (0 < Lagged_Mkt_Value o)%R).
    { rewrite Hval. apply Rsum_pos.
      - apply Forall_map. exact Hall.
      - apply Exists_exists in Hex. destruct Hex as (s & Hs & Hp).
        apply Exists_exists. exists (p_lme s). split; [now apply in_map|exact Hp]. }
    split; [exact Hpos|lra].
  - intros french stocks out o Hout Ho Hz.
    destruct (retained_row_fields _ _ _ Hout Ho) as (r & _ & Hv & _ & Hl).
    assert (Hz' : Forall (fun s => p_lme s = 0%float \/ p_lme s = neg_zero)
                    (this_stocks stocks (mr_ym o))).
    { eapply Forall_impl; [|exact Hz]. intros s. apply float_eqb_zero_spec. }
    destruct (zero_lagged_values_nan_return r Hz') as (Hs & _ & Hn).
    split.
    + rewrite Hl.
      change (PrimFloat.eqb (start_value (this_stocks stocks (mr_ym o))) 0%float = true).
      now rewrite Hs.
    + rewrite Hv. exact Hn.
Qed.

Lemma retained_month_total_lagged_value_witness :
  monthly_returns french_feb_R panel_feb_R = Some [feb_row_R]
  /\ (0 < Lagged_Mkt_Value feb_row_R)%R.
Proof.
  assert (H : monthly_returns french_feb_R panel_feb_R = Some [feb_row_R])
    by reflexivity.
  split; [exact H|].
  destruct (proj1 (proj2 retained_month_total_lagged_value)
              french_feb_R panel_feb_R [feb_row_R] feb_row_R H (or_introl eq_refl))
    as (_ & Hpos).
  apply Hpos.
  - repeat constructor; cbn; lra.
  - left. cbn. lra.
Defined.

(** ** Where the rows of each stage come from *)

Section Provenance.
Context {F : Type} {N : Num F}.

Lemma map3_In {A B C D : Type} (f : A -> B -> C -> D) (l : list A) :
  forall (m : list B) (n : list C) (d : D),
    In d (map3 f l m n) -> exists x y z, In x l /\ d = f x y z.
Proof.
  induction l as [|x l IH]; intros [|y m] [|z n] d H; cbn in H; try contradiction.
  destruct H as [<-|H].
  - exists x, y, z. split; [now left|reflexivity].
  - destruct (IH _ _ _ H) as (x' & y' & z' & Hx & ->).
    exists x', y', z'. split; [now right|reflexivity].
Qed.

Lemma clean_crsp_In (crsp_raw : list (crsp_row F)) (c : crsp_row F) :
  In c (clean_crsp crsp_raw) -> exists c0, In c0 crsp_raw /\ c = abs_prc c0.
Proof.
  unfold clean_crsp. intros H. apply in_map_iff in H.
  destruct H as (c0 & <- & H0). apply sort_values_In in H0. eauto.
Qed.

Lemma merge_left_In (dl : list (dl_row F)) (c : crsp_row F) (m : merged F) :
  In m (merge_left dl c) -> exists o, m = of_both c o.
Proof.
  unfold merge_left.
  destruct (filter _ dl) as [|d ds].
  - intros [<-|[]]. eauto.
  - intros H. apply in_map_iff in H. destruct H as (d' & <- & _). eauto.
Qed.

Lemma merge_outer_In (crsp : list (crsp_row F)) (dl : list (dl_row F)) (m : merged F) :
  In m (merge_outer crsp dl) ->
  (exists c o, In c crsp /\ m = of_both c o) \/ (exists d, In d dl /\ m = of_right d).
Proof.
  unfold merge_outer. intros H. apply sort_values_In in H.
  apply in_app_or in H. destruct H as [H|H].
  - left. apply in_flat_map in H. destruct H as (c & Hc & H).
    apply merge_left_In in H. destruct H as [o ->]. eauto.
  - right. apply in_map_iff in H. destruct H as (d & <- & Hd).
    apply filter_In in Hd. destruct Hd as [Hd _]. eauto.
Qed.

Lemma scan_lme_In (rows : list (stock F)) :
  forall (prev : option (stock F)) (r : lagged F),
    In r (scan_lme prev rows) ->
    In (row r) rows
    /\ forall v, lme r = Some v ->
                exists p, (prev = Some p \/ In p rows) /\ v = me p.
Proof.
  induction rows as [|s t IH]; intros prev r H; cbn in H; [contradiction|].
  destruct H as [<-|H].
  - split; [now left|]. cbn. intros v Hv.
    destruct prev as [p|]; [|discriminate].
    apply lag_of_Some in Hv. destruct Hv as (_ & _ & ->). eauto.
  - destruct (IH _ _ H) as [Hr Hv]. split; [now right|].
    intros v E. destruct (Hv v E) as (p & [[= <-]|Hp] & ->).
    + exists s. split; [right; now left|reflexivity].
    + exists p. split; [right; now right|reflexivity].
Qed.

Lemma dropna_In (l : list (lagged F)) (p : panel_row F) :
  In p (dropna l) -> exists r, In r l /\ complete_row r = Some p.
Proof.
  induction l as [|r t IH]; cbn; [contradiction|].
  destruct (complete_row r) as [q|] eqn:E.
  - intros [<-|H]; [eauto|]. destruct (IH H) as (r' & Hr' & E'). eauto.
  - intros H. destruct (IH H) as (r' & Hr' & E'). eauto.
Qed.

Lemma complete_row_lme (r : lagged F) (p : panel_row F) :
  complete_row r = Some p -> lme r = Some (p_lme p).
Proof.
  unfold complete_row. destruct (lme r) as [l|]; [|discriminate].
  destruct (_ || _); [discriminate|]. intros [= <-]. reflexivity.
Qed.

Lemma stocks_In (crsp_raw : list (crsp_row F)) (dlret_raw : list (dl_row F))
    (p : panel_row F) :
  In p (stocks crsp_raw dlret_raw) ->
  exists r, In r (enriched crsp_raw dlret_raw) /\ lme r = Some (p_lme p).
Proof.
  unfold stocks, share_exchange_filter. intros H.
  apply dropna_In in H. destruct H as (r & Hr & E).
  apply filter_In in Hr. destruct Hr as [Hr _].
  apply complete_row_lme in E. eauto.
Qed.
End Provenance.

(** ** C1: when the lagged market equity is defined *)

(** The lag of a row of the enriched panel, read off the row above it. *)
Lemma enriched_lag {F : Type} {N : Num F}
    (crsp_raw : list (crsp_row F)) (dlret_raw : list (dl_row F))
    (i : nat) (r : lagged F) :
  nth_error (enriched crsp_raw dlret_raw) i = Some r ->
  forall v : F,
    lme r = Some v <->
    exists (j : nat) (prev : lagged F),
      i = S j /\ nth_error (enriched crsp_raw dlret_raw) j = Some prev /\
      permno (row prev) = permno (row r) /\
      year (date (row prev)) * 12 + month (date (row prev))
      = year (date (row r)) * 12 + month (date (row r)) - 1 /\
      v = me (row prev).
Proof.
  unfold enriched.
  set (rows := sort_values _ _).
  intros H v. pose proof (attach_lme_nth _ _ H) as Hl.
  destruct i as [|j].
  - rewrite Hl. cbn. split; [discriminate|].
    intros (j & prev & Hi & _). discriminate.
  - destruct (nth_error (attach_lme rows) j) as [prev|] eqn:Hj.
    + cbn [option_map] in Hl. rewrite Hl, lag_of_Some. unfold daten. split.
      * intros (Hp & Hd & Hv). exists j, prev. auto.
      * intros (j' & prev' & [= <-] & Hprev & Hp & Hd & Hv).
        rewrite Hj in Hprev. inversion Hprev; subst prev'. auto.
    + apply nth_error_None in Hj.
      assert (Hnone : nth_error (attach_lme rows) (S j) = None)
        by (apply nth_error_None; lia).
      congruence.
Qed.

(** The claim fails on the notebook's arithmetic: the January price is
    infinite and the shares outstanding are missing, so the January market
    equity is [inf * 0], which is NaN.  The February row follows it with the
    same security and the next month index, yet its lagged market equity is
    NaN, and [dropna] removes the row from the analysis panel. *)
Lemma adjacent_month_with_nan_market_equity :
  exists prev r : lagged float,
    nth_error (enriched crsp_infinite_price []) 0 = Some prev
    /\ nth_error (enriched crsp_infinite_price []) 1 = Some r
    /\ permno (row prev) = permno (row r)
    /\ year (date (row prev)) * 12 + month (date (row prev))
       = year (date (row r)) * 12 + month (date (row r)) - 1
    /\ prc (row prev) = infinity /\ shrout (row prev) = 0%float
    /\ PrimFloat.is_nan (me (row prev)) = true
    /\ option_map PrimFloat.is_nan (lme r) = Some true
    /\ stocks crsp_infinite_price [] = [].
Proof.
  do 2 eexists. split; [vm_compute; reflexivity|].
  split; [vm_compute; reflexivity|].
  repeat split; vm_compute; reflexivity.
Qed.

(** Every row of the enriched panel is a filled row of the merged table. *)
Lemma enriched_row_filled {F : Type} {N : Num F}
    (crsp_raw : list (crsp_row F)) (dlret_raw : list (dl_row F)) (r : lagged F) :
  In r (enriched crsp_raw dlret_raw) ->
  exists (m : merged F) (sc ec : option Z), row r = fill_row m sc ec.
Proof.
  unfold enriched. rewrite attach_lme_scan. intros H.
  apply scan_lme_In in H. destruct H as [H _].
  apply sort_values_In in H. unfold stocks_filled in H.
  apply map3_In in H. destruct H as (m & sc & ec & _ & E). eauto.
Qed.

Lemma float_fillna_not_nan (o : option float) :
  PrimFloat.is_nan (fillna 0%float o) = false.
Proof.
  destruct o as [x|]; cbn; [|reflexivity].
  destruct (PrimFloat.is_nan x) eqn:E; [reflexivity|exact E].
Qed.

(** In binary64 the market equity of a filled row is NaN exactly when an
    infinite price meets zero shares, or a zero price infinite shares. *)
Lemma fill_row_me_nan_iff (m : merged float) (sc ec : option Z) :
  let s := fill_row m sc ec in
  PrimFloat.is_nan (me s) = true <->
  (PrimFloat.abs (prc s) = infinity /\ PrimFloat.eqb (shrout s) 0%float = true)
  \/ (PrimFloat.eqb (prc s) 0%float = true /\ PrimFloat.abs (shrout s) = infinity).
Proof.
  cbn. rewrite !float_eqb_zero_spec.
  apply float_mul_nan_iff; apply float_fillna_not_nan.
Qed.

(** C1 (amended). In the enriched panel (merged, filled, sorted by security
    and date), in any arithmetic, the lagged market equity of a row is
    defined (present and not NaN), with value [v], exactly when the row has
    an immediately preceding row, that row carries the same security id and
    a month index [year * 12 + month] one less, [v] is that row's market
    equity, and that market equity is not NaN.  The first row of the table
    and every row whose preceding row is of another security have no lag.
    In exact arithmetic no market equity is NaN, and the lag is defined
    exactly when the preceding row is of the same security, one month
    before.  In binary64 the market equity of a row is NaN exactly when its
    price is infinite and its shares outstanding are zero, or its price is
    zero and its shares outstanding are infinite. *)
Theorem lme_defined_iff_adjacent_month :
  (forall (F : Type) (N : Num F)
          (crsp_raw : list (crsp_row F)) (dlret_raw : list (dl_row F))
          (i : nat) (r : lagged F),
      nth_error (enriched crsp_raw dlret_raw) i = Some r ->
      forall v : F,
        (lme r = Some v /\ is_nan v = false) <->
        exists (j : nat) (prev : lagged F),
          i = S j /\ nth_error (enriched crsp_raw dlret_raw) j = Some prev /\
          permno (row prev) = permno (row r) /\
          year (date (row prev)) * 12 + month (date (row prev))
          = year (date (row r)) * 12 + month (date (row r)) - 1 /\
          v = me (row prev) /\ is_nan (me (row prev)) = false)
  /\ (forall (F : Type) (N : Num F)
             (crsp_raw : list (crsp_row F)) (dlret_raw : list (dl_row F))
             (r : lagged F),
        nth_error (enriched crsp_raw dlret_raw) 0 = Some r -> lme r = None)
  /\ (forall (F : Type) (N : Num F)
             (crsp_raw : list (crsp_row F)) (dlret_raw : list (dl_row F))
             (j : nat) (prev r : lagged F),
        nth_error (enriched crsp_raw dlret_raw) j = Some prev ->
        nth_error (enriched crsp_raw dlret_raw) (S j) = Some r ->
        permno (row prev) <> permno (row r) -> lme r = None)
  /\ (forall (crsp_raw : list (crsp_row R)) (dlret_raw : list (dl_row R))
             (i : nat) (r : lagged R),
        nth_error (enriched crsp_raw dlret_raw) i = Some r ->
        forall v : R,
          lme r = Some v <->
          exists (j : nat) (prev : lagged R),
            i = S j /\ nth_error (enriched crsp_raw dlret_raw) j = Some prev /\
            permno (row prev) = permno (row r) /\
            year (date (row prev)) * 12 + month (date (row prev))
            = year (date (row r)) * 12 + month (date (row r)) - 1 /\
            v = me (row prev))
  /\ (forall (crsp_raw : list (crsp_row float)) (dlret_raw : list (dl_row float))
             (r : lagged float),
        In r (enriched crsp_raw dlret_raw) ->
        (PrimFloat.is_nan (me (row r)) = true <->
         (PrimFloat.abs (prc (row r)) = infinity
          /\ PrimFloat.eqb (shrout (row r)) 0%float = true)
         \/ (PrimFloat.eqb (prc (row r)) 0%float = true
             /\ PrimFloat.abs (shrout (row r)) = infinity))).
Proof.
  split; [|split; [|split; [|split]]].
  - intros F N crsp_raw dlret_raw i r H v.
    rewrite (enriched_lag _ _ _ H v). split.
    + intros [(j & prev & Hi & Hj & Hp & Hd & Hv) Hn].
      exists j, prev. repeat split; try assumption. now rewrite <- Hv.
    + intros (j & prev & Hi & Hj & Hp & Hd & Hv & Hn).
      split; [exists j, prev; auto|now rewrite Hv].
  - intros F N crsp_raw dlret_raw r H.
    destruct (lme r) as [v|] eqn:E; [|reflexivity].
    apply (enriched_lag _ _ _ H) in E.
    destruct E as (j & prev & Hi & _). discriminate.
  - intros F N crsp_raw dlret_raw j prev r Hj H Hne.
    destruct (lme r) as [v|] eqn:E; [|reflexivity].
    apply (enriched_lag _ _ _ H) in E.
    destruct E as (j' & prev' & [= <-] & Hj' & Hp & _).
    rewrite Hj in Hj'. inversion Hj'; subst prev'. contradiction.
  - intros crsp_raw dlret_raw i r H v. exact (enriched_lag _ _ _ H v).
  - intros crsp_raw dlret_raw r H.
    apply enriched_row_filled in H. destruct H as (m & sc & ec & ->).
    apply fill_row_me_nan_iff.
Qed.

Lemma lme_defined_iff_adjacent_month_witness :
  nth_error (enriched crsp_gap_price []) 1
  = Some {| row := {| permno := 1; date := ym_of 2020 2;
                      shrcd := Some 10; exchcd := Some 1;
                      ret := 0.25%float; shrout := 100%float; prc := 10%float;
                      dlret := 0%float; me := 1000%float |};
            lme := Some 0%float |}
  /\ exists (j : nat) (prev : lagged float),
      1%nat = S j /\ nth_error (enriched crsp_gap_price []) j = Some prev /\
      permno (row prev) = 1 /\
      year (date (row prev)) * 12 + month (date (row prev)) = 2020 * 12 + 2 - 1 /\
      0%float = me (row prev) /\ PrimFloat.is_nan (me (row prev)) = false.
Proof.
  assert (H : nth_error (enriched crsp_gap_price []) 1
              = Some {| row := {| permno := 1; date := ym_of 2020 2;
                                  shrcd := Some 10; exchcd := Some 1;
                                  ret := 0.25%float; shrout := 100%float;
                                  prc := 10%float; dlret := 0%float;
                                  me := 1000%float |};
                        lme := Some 0%float |})
    by (vm_compute; reflexivity).
  split; [exact H|].
  exact (proj1 (proj1 lme_defined_iff_adjacent_month float _ _ _ _ _ H 0%float)
           (conj eq_refl eq_refl)).
Defined.

(** ** C10: the sign of the market equity *)

(** The claim fails on the notebook's arithmetic and tables: only the price
    is made positive, so 100 negative shares at a price of 10 give a market
    equity of -1000. *)
Lemma negative_shares_negative_market_equity :
  map (fun r => me (row r)) (enriched crsp_negative_shares []) = [(-1000)%float]
  /\ PrimFloat.ltb (-1000)%float 0%float = true.
Proof. split; vm_compute; reflexivity. Qed.

Lemma fill_row_me_nonneg (m : merged R) (sc ec : option Z) :
  (forall p, m_prc m = Some p -> 0 <= p)%R ->
  (forall s, m_shrout m = Some s -> 0 <= s)%R ->
  (0 <= me (fill_row m sc ec))%R.
Proof.
  intros Hp Hs. cbn.
  apply Rmult_le_pos.
  - destruct (m_prc m) as [p|]; cbn; [now apply Hp|lra].
  - destruct (m_shrout m) as [x|]; cbn; [now apply Hs|lra].
Qed.

Lemma merged_cells_nonneg (crsp_raw : list (crsp_row R)) (dl : list (dl_row R))
    (m : merged R) :
  (forall c s, In c crsp_raw -> c_shrout c = Some s -> 0 <= s)%R ->
  In m (merge_outer (clean_crsp crsp_raw) dl) ->
  (forall p, m_prc m = Some p -> 0 <= p)%R
  /\ (forall s, m_shrout m = Some s -> 0 <= s)%R.
Proof.
  intros Hsh H. apply merge_outer_In in H.
  destruct H as [(c & o & Hc & ->)|(d & _ & ->)].
  - apply clean_crsp_In in Hc. destruct Hc as (c0 & Hc0 & ->). cbn. split.
    + intros p E. destruct (c_prc c0) as [q|]; [|discriminate].
      cbn in E. inversion E. apply Rabs_pos.
    + intros s E. now apply (Hsh c0).
  - cbn. split; discriminate.
Qed.

Lemma filled_me_nonneg (crsp_raw : list (crsp_row R)) (dl : list (dl_row R))
    (s : stock R) :
  (forall c x, In c crsp_raw -> c_shrout c = Some x -> 0 <= x)%R ->
  In s (stocks_filled (merge_outer (clean_crsp crsp_raw) dl)) ->
  (0 <= me s)%R.
Proof.
  intros Hsh H. unfold stocks_filled in H.
  apply map3_In in H. destruct H as (m & sc & ec & Hm & ->).
  destruct (merged_cells_nonneg _ _ _ Hsh Hm) as [Hp Hs].
  now apply fill_row_me_nonneg.
Qed.

(** C10 (amended). If no row of the raw security table reports a negative
    number of shares outstanding then, in exact arithmetic, every market
    equity of the enriched panel is nonnegative, and so are every defined
    lagged market equity and the total lagged market value of every month of
    the aggregated output. *)
Theorem market_equity_nonnegative
    (crsp_raw : list (crsp_row R)) (dlret_raw : list (dl_row R)) :
  (forall c x, In c crsp_raw -> c_shrout c = Some x -> 0 <= x)%R ->
  (forall r, In r (enriched crsp_raw dlret_raw) ->
             (0 <= me (row r))%R /\ forall v, lme r = Some v -> (0 <= v)%R)
  /\ (forall french out o,
        monthly_returns french (stocks crsp_raw dlret_raw) = Some out ->
        In o out -> (0 <= Lagged_Mkt_Value o)%R).
Proof.
  intros Hsh.
  assert (Henr : forall r, In r (enriched crsp_raw dlret_raw) ->
                 (0 <= me (row r))%R /\ forall v, lme r = Some v -> (0 <= v)%R).
  { unfold enriched. intros r Hr. rewrite attach_lme_scan in Hr.
    apply scan_lme_In in Hr. destruct Hr as [Hrow Hlag].
    assert (Hme : forall s,
               In s (sort_values (fun a b => key_leb (s_key a) (s_key b))
                       (stocks_filled (merge_outer (clean_crsp crsp_raw)
                                         (clean_dlret dlret_raw)))) ->
               (0 <= me s)%R).
    { intros s Hs. apply sort_values_In in Hs.
      now apply (filled_me_nonneg crsp_raw (clean_dlret dlret_raw)). }
    split; [now apply Hme|].
    intros v Hv. destruct (Hlag v Hv) as (p & [Hp|Hp] & ->); [discriminate|].
    now apply Hme. }
  split; [exact Henr|].
  intros french out o Hout Ho.
  erewrite lagged_value_is_sum; [|exact Hout|exact Ho].
  apply Rsum_nonneg, Forall_map, Forall_forall.
  intros p Hp. unfold this_stocks in Hp. apply filter_In in Hp. destruct Hp as [Hp _].
  apply stocks_In in Hp. destruct Hp as (r & Hr & Hl).
  now apply (Henr r Hr).
Qed.

Lemma market_equity_nonnegative_witness :
  (forall c x, In c crsp_two_months_R -> c_shrout c = Some x -> 0 <= x)%R
  /\ (forall r, In r (enriched crsp_two_months_R []) ->
                (0 <= me (row r))%R /\ forall v, lme r = Some v -> (0 <= v)%R).
Proof.
  assert (H : (forall c x, In c crsp_two_months_R -> c_shrout c = Some x -> 0 <= x)%R).
  { intros c x [<-|[<-|[]]]; cbn; intros [= <-]; lra. }
  split; [exact H|].
  exact (proj1 (market_equity_nonnegative crsp_two_months_R [] H)).
Defined.

(** ** C9: the order of the rows and of the months *)



Lemma merge_inner_keys_filter (left right : list ym) :
  NoDup right ->
  merge_inner_keys left right = filter (fun k => existsb (ym_eqb k) right) left.
Proof.
  intros Hr. unfold merge_inner_keys.
  induction left as [|x t IH]; cbn; [reflexivity|].
  rewrite (filter_key_NoDup x Hr), IH.
  now destruct (existsb (ym_eqb x) right).
Qed.





(** In binary64 the order of the rows shows in the last digits only:
    listing the three February securities in the reverse order moves the
    equal-weighted return by one unit in the last place, because binary64
    addition is not associative. *)
Lemma row_order_changes_binary64_returns :
  Permutation panel_feb (rev panel_feb)
  /\ option_map (map (fun o => (MktRF_VW o, MktRF_EW o))) (monthly_returns french_feb panel_feb)
     = Some [(0.23208333333333334%float, 0.19875000000000004%float)]
  /\ option_map (map (fun o => (MktRF_VW o, MktRF_EW o)))
       (monthly_returns french_feb (rev panel_feb))
     = Some [(0.23208333333333334%float, 0.19874999999999998%float)]
  /\ monthly_returns french_feb panel_feb <> monthly_returns french_feb (rev panel_feb).
Proof.
  split; [apply Permutation_rev|].
  split; [vm_compute; reflexivity|].
  split; [vm_compute; reflexivity|].
  intros E.
  assert (E' : option_map (map (fun o => PrimFloat.eqb (MktRF_EW o) 0.19875000000000004%float))
                 (monthly_returns french_feb panel_feb)
               = option_map (map (fun o => PrimFloat.eqb (MktRF_EW o) 0.19875000000000004%float))
                   (monthly_returns french_feb (rev panel_feb)))
    by (rewrite E; reflexivity).
  vm_compute in E'. discriminate.
Qed.






(** ** C8: the annualised statistics *)

(** The sample and the population standard deviations differ: over the two
    values 0 and 2 the first is the square root of 2 and the second is 1. *)
Lemma sample_std_is_not_population :
  sample_std [0; 2]%R <> population_std [0; 2]%R.
Proof.
  unfold sample_std, population_std, Rmean, Rsqr. cbn.
  replace (((0 - (0 + (2 + 0)) / (1 + 1)) * (0 - (0 + (2 + 0)) / (1 + 1))
            + ((2 - (0 + (2 + 0)) / (1 + 1)) * (2 - (0 + (2 + 0)) / (1 + 1)) + 0))
           / (1 + 1 - 1))%R with 2%R by field.
  replace (((0 - (0 + (2 + 0)) / (1 + 1)) * (0 - (0 + (2 + 0)) / (1 + 1))
            + ((2 - (0 + (2 + 0)) / (1 + 1)) * (2 - (0 + (2 + 0)) / (1 + 1)) + 0))
           / (1 + 1))%R with 1%R by field.
  rewrite sqrt_1. intros H.
  assert (H2 : (R_sqrt.sqrt 2 * R_sqrt.sqrt 2 = 2)%R) by (apply sqrt_sqrt; lra).
  rewrite H in H2. lra.
Qed.


(** The statistical scenario in binary64: the annualised mean is the
    product of 1200 and the monthly mean, and the standard deviation divides
    by 4, not by 5. *)
Lemma statistical_scenario_binary64 :
  mean series_five = 0.0069999999999999993%float
  /\ annualized_mean series_five = PrimFloat.mul 1200 (mean series_five)
  /\ std series_five = Some 0.01857417562100671%float
  /\ nsqrt (ndiv (np_sum (map (fun x => nmul (nsub (mean series_five) x)
                                            (nsub (mean series_five) x))
                             series_five)) 5%float)
     = 0.016613247725836149%float.
Proof. repeat split; vm_compute; reflexivity. Qed.

(** A NaN month is left out of the count and of both sums; an infinite
    month makes the mean infinite and the standard deviation NaN. *)
Lemma statistics_with_missing_and_infinite_months :
  mean (series_five ++ [nan]) = mean series_five
  /\ std (series_five ++ [nan]) = std series_five
  /\ mean [0.01; infinity; 0.02]%float = infinity
  /\ option_map PrimFloat.is_nan (std [0.01; infinity; 0.02]%float) = Some true.
Proof. repeat split; vm_compute; reflexivity. Qed.


(** ** The enriched panel is sorted *)

Lemma key_leb_total (a b : Z * ym) : key_leb a b = false -> key_leb b a = true.
Proof.
  destruct a as [pa [ya ma]], b as [pb [yb mb]]. unfold key_leb, ym_leb. cbn.
  rewrite !orb_false_iff, !orb_true_iff, !andb_false_iff, !andb_true_iff,
    !orb_false_iff, !orb_true_iff, !andb_false_iff, !andb_true_iff,
    !Z.ltb_lt, !Z.ltb_ge, !Z.eqb_eq, !Z.eqb_neq, !Z.leb_le, !Z.leb_gt.
  lia.
Qed.

Section Sortedness.
Context {A : Type} (leb : A -> A -> bool).
Hypothesis leb_total : forall a b, leb a b = false -> leb b a = true.

Lemma insert_sorted (x : A) (l : list A) :
  Sorted (fun a b => leb a b = true) l ->
  Sorted (fun a b => leb a b = true) (insert leb x l).
Proof.
  induction 1 as [|y t Ht IH Hy]; cbn.
  - repeat constructor.
  - destruct (leb x y) eqn:E.
    + repeat constructor; assumption.
    + constructor; [exact IH|].
      destruct Hy as [|z t' Hz]; cbn.
      * constructor. now apply leb_total.
      * destruct (leb x z); constructor; [now apply leb_total|exact Hz].
Qed.

Lemma sort_values_sorted (l : list A) :
  Sorted (fun a b => leb a b = true) (sort_values leb l).
Proof.
  induction l as [|x t IH]; cbn; [constructor|now apply insert_sorted].
Qed.
End Sortedness.

Lemma enriched_sorted {F : Type} {N : Num F}
    (crsp_raw : list (crsp_row F)) (dlret_raw : list (dl_row F)) :
  Sorted (fun a b => key_leb (s_key a) (s_key b) = true)
    (map (@row F) (enriched crsp_raw dlret_raw)).
Proof.
  unfold enriched. rewrite attach_lme_scan, scan_lme_rows.
  apply sort_values_sorted. intros a b. apply key_leb_total.
Qed.

(** * Further facts *)

(** ** Sorting again, and sorting under a map *)

Lemma ym_leb_trans (a b c : ym) :
  ym_leb a b = true -> ym_leb b c = true -> ym_leb a c = true.
Proof.
  destruct a as [ya ma], b as [yb mb], c as [yc mc]. unfold ym_leb. cbn.
  rewrite !orb_true_iff, !andb_true_iff, !Z.ltb_lt, !Z.eqb_eq, !Z.leb_le. lia.
Qed.

Lemma key_leb_trans (a b c : Z * ym) :
  key_leb a b = true -> key_leb b c = true -> key_leb a c = true.
Proof.
  destruct a as [pa da], b as [pb db], c as [pc dc]. unfold key_leb. cbn.
  rewrite !orb_true_iff, !andb_true_iff, !Z.ltb_lt, !Z.eqb_eq.
  intros [H1|[H1 L1]] [H2|[H2 L2]]; try (left; lia).
  right. split; [lia|]. eapply ym_leb_trans; eassumption.
Qed.

Lemma ym_leb_total (a b : ym) : ym_leb a b = false -> ym_leb b a = true.
Proof.
  destruct a as [ya ma], b as [yb mb]. unfold ym_leb. cbn.
  rewrite !orb_false_iff, !orb_true_iff, !andb_false_iff, !andb_true_iff,
    !Z.ltb_lt, !Z.ltb_ge, !Z.eqb_eq, !Z.eqb_neq, !Z.leb_le, !Z.leb_gt.
  lia.
Qed.

Section SortAgain.
Context {A : Type} (leb : A -> A -> bool).

Lemma insert_below_head (x : A) (l : list A) :
  HdRel (fun a b => leb a b = true) x l -> insert leb x l = x :: l.
Proof.
  intros H. destruct H as [|y t Hy]; cbn; [reflexivity|]. now rewrite Hy.
Qed.

Lemma sort_values_sorted_id (l : list A) :
  Sorted (fun a b => leb a b = true) l -> sort_values leb l = l.
Proof.
  induction 1 as [|x t Ht IH Hx]; cbn; [reflexivity|].
  unfold sort_values in IH. rewrite IH. now apply insert_below_head.
Qed.

Lemma sort_values_map {B : Type} (leb' : B -> B -> bool) (f : A -> B) (l : list A) :
  (forall a b, leb' (f a) (f b) = leb a b) ->
  sort_values leb' (map f l) = map f (sort_values leb l).
Proof.
  intros Hf.
  assert (Hins : forall x t, insert leb' (f x) (map f t) = map f (insert leb x t)).
  { intros x t. induction t as [|y t IH]; cbn; [reflexivity|].
    rewrite Hf. destruct (leb x y); cbn; [reflexivity|]. now rewrite IH. }
  induction l as [|x t IH]; cbn; [reflexivity|].
  unfold sort_values in IH. now rewrite IH, Hins.
Qed.
End SortAgain.

(** ** The cleaning of the security table *)

Lemma clean_crsp_as_sort {F : Type} {N : Num F} (crsp_raw : list (crsp_row F)) :
  clean_crsp crsp_raw
  = sort_values (fun a b => key_leb (c_key a) (c_key b)) (map abs_prc crsp_raw).
Proof.
  unfold clean_crsp. symmetry. now apply sort_values_map.
Qed.

Lemma clean_crsp_sorted {F : Type} {N : Num F} (crsp_raw : list (crsp_row F)) :
  Sorted (fun a b => key_leb (c_key a) (c_key b) = true) (clean_crsp crsp_raw).
Proof.
  rewrite clean_crsp_as_sort. apply sort_values_sorted.
  intros a b. apply key_leb_total.
Qed.

(** X1. The cleaned security table is sorted by security and date, and it
    holds the raw rows, each once and with nothing changed but the price,
    which is replaced by its absolute value. *)
Theorem clean_crsp_sorted_same_rows
    {F : Type} {N : Num F} (crsp_raw : list (crsp_row F)) :
  Sorted (fun a b => key_leb (c_key a) (c_key b) = true) (clean_crsp crsp_raw)
  /\ Permutation (clean_crsp crsp_raw) (map abs_prc crsp_raw)
  /\ length (clean_crsp crsp_raw) = length crsp_raw.
Proof.
  split; [apply clean_crsp_sorted|].
  rewrite clean_crsp_as_sort. split.
  - apply sort_values_perm.
  - rewrite (Permutation_length (sort_values_perm _ _)). apply length_map.
Qed.

Lemma float_abs_idempotent (x : float) : PrimFloat.abs (PrimFloat.abs x) = PrimFloat.abs x.
Proof.
  apply Prim2SF_inj. rewrite !abs_spec.
  destruct (Prim2SF x); reflexivity.
Qed.

Lemma clean_crsp_again {F : Type} {N : Num F} (crsp_raw : list (crsp_row F)) :
  (forall x : F, nabs (nabs x) = nabs x) ->
  clean_crsp (clean_crsp crsp_raw) = clean_crsp crsp_raw.
Proof.
  intros Habs.
  pose proof (clean_crsp_sorted crsp_raw) as Hs.
  unfold clean_crsp at 1. rewrite (sort_values_sorted_id _ Hs).
  unfold clean_crsp. rewrite map_map. apply map_ext.
  intros c. unfold abs_prc. cbn. f_equal.
  destruct (c_prc c) as [p|]; cbn; [now rewrite Habs|reflexivity].
Qed.

(** X2. Cleaning a cleaned security table changes nothing, in exact
    arithmetic and in binary64: the cell can be run again on its own
    output. *)
Theorem clean_crsp_idempotent :
  (forall crsp_raw : list (crsp_row R),
      clean_crsp (clean_crsp crsp_raw) = clean_crsp crsp_raw)
  /\ (forall crsp_raw : list (crsp_row float),
        clean_crsp (clean_crsp crsp_raw) = clean_crsp crsp_raw).
Proof.
  split; intros crsp_raw; apply clean_crsp_again.
  - intros x. cbn. apply Rabs_Rabsolu.
  - intros x. cbn. apply float_abs_idempotent.
Qed.

(** ** The outer merge *)

Lemma key_eqb_eq (a b : Z * ym) : key_eqb a b = true <-> a = b.
Proof.
  destruct a as [pa da], b as [pb db]. unfold key_eqb. cbn.
  rewrite andb_true_iff, Z.eqb_eq, ym_eqb_eq. split.
  - intros [-> ->]. reflexivity.
  - intros [= -> ->]. auto.
Qed.

Section MergeFacts.
Context {F : Type} {N : Num F}.

Lemma merge_left_keys (dl : list (dl_row F)) (c : crsp_row F) (m : merged F) :
  In m (merge_left dl c) -> m_key m = c_key c.
Proof.
  intros H. apply merge_left_In in H. destruct H as [o ->]. reflexivity.
Qed.

Lemma merge_left_nonempty (dl : list (dl_row F)) (c : crsp_row F) :
  exists m, In m (merge_left dl c).
Proof.
  unfold merge_left. destruct (filter _ dl) as [|d ds]; cbn; eauto.
Qed.

Lemma merge_outer_key_In
    (crsp : list (crsp_row F)) (dl : list (dl_row F)) (k : Z * ym) :
  In k (map (@m_key F) (merge_outer crsp dl)) <->
  In k (map (@c_key F) crsp) \/ In k (map (@d_key F) dl).
Proof.
  rewrite !in_map_iff. split.
  - intros (m & <- & Hm). apply merge_outer_In in Hm.
    destruct Hm as [(c & o & Hc & ->)|(d & Hd & ->)].
    + left. exists c. auto.
    + right. exists d. auto.
  - assert (Hleft : forall c, In c crsp ->
                exists m, m_key m = c_key c /\ In m (merge_outer crsp dl)).
    { intros c Hc. destruct (merge_left_nonempty dl c) as [m Hm].
      exists m. split; [now apply merge_left_keys in Hm|].
      unfold merge_outer. apply sort_values_In, in_or_app. left.
      apply in_flat_map. eauto. }
    intros [(c & <- & Hc)|(d & <- & Hd)]; [now apply Hleft|].
    destruct (existsb (fun c => key_eqb (c_key c) (d_key d)) crsp) eqn:E.
    + apply existsb_exists in E. destruct E as (c & Hc & E).
      apply key_eqb_eq in E. rewrite <- E. now apply Hleft.
    + exists (of_right d). split; [reflexivity|].
      unfold merge_outer. apply sort_values_In, in_or_app. right.
      apply in_map. unfold right_only. apply filter_In. now rewrite E.
Qed.

(** X3. The merge is a full outer join: a security-month is a key of the
    merged table exactly when it is a key of the security table or of the
    delisting table, and every row of the security table is found in the
    merged table with its columns unchanged. *)
Theorem merge_outer_keys_union
    (crsp : list (crsp_row F)) (dl : list (dl_row F)) :
  (forall k : Z * ym,
      In k (map (@m_key F) (merge_outer crsp dl)) <->
      In k (map (@c_key F) crsp) \/ In k (map (@d_key F) dl))
  /\ (forall c, In c crsp -> exists o, In (of_both c o) (merge_outer crsp dl)).
Proof.
  split; [intros k; apply merge_outer_key_In|].
  intros c Hc. destruct (merge_left_nonempty dl c) as [m Hm].
  pose proof Hm as Ho. apply merge_left_In in Ho. destruct Ho as [o ->].
  exists o. unfold merge_outer. apply sort_values_In, in_or_app. left.
  apply in_flat_map. eauto.
Qed.

Lemma filter_unique_key (dl : list (dl_row F)) (k : Z * ym) :
  NoDup (map (@d_key F) dl) ->
  (length (filter (fun d => key_eqb k (d_key d)) dl) <= 1)%nat.
Proof.
  induction dl as [|d t IH]; cbn; intros H; [lia|].
  inversion H as [|? ? Hd Ht]; subst.
  destruct (key_eqb k (d_key d)) eqn:E; [|now apply IH].
  apply key_eqb_eq in E. subst k. cbn.
  assert (Hnone : filter (fun d0 => key_eqb (d_key d) (d_key d0)) t = []).
  { destruct (filter _ t) as [|e es] eqn:Ef; [reflexivity|].
    assert (He : In e (filter (fun d0 => key_eqb (d_key d) (d_key d0)) t))
      by (rewrite Ef; now left).
    apply filter_In in He. destruct He as [He Ee]. apply key_eqb_eq in Ee.
    exfalso. apply Hd. rewrite Ee. now apply in_map. }
  rewrite Hnone. cbn. lia.
Qed.

Lemma merge_left_one_row (dl : list (dl_row F)) (c : crsp_row F) :
  NoDup (map (@d_key F) dl) -> length (merge_left dl c) = 1%nat.
Proof.
  intros H. pose proof (filter_unique_key dl (c_key c) H) as Hlen.
  unfold merge_left.
  destruct (filter _ dl) as [|d [|e es]]; cbn in *; try reflexivity. lia.
Qed.

(** X4. When no security-month has two delisting events, the merge neither
    repeats nor drops a row: the merged table has one row for each row of
    the security table and one for each delisting event without
    observation. *)
Theorem merge_outer_row_count
    (crsp : list (crsp_row F)) (dl : list (dl_row F)) :
  NoDup (map (@d_key F) dl) ->
  length (merge_outer crsp dl) = (length crsp + length (right_only crsp dl))%nat.
Proof.
  intros H. unfold merge_outer.
  rewrite (Permutation_length (sort_values_perm _ _)), length_app, length_map.
  f_equal. induction crsp as [|c t IH]; cbn; [reflexivity|].
  now rewrite length_app, merge_left_one_row, IH.
Qed.
End MergeFacts.

Lemma merge_outer_row_count_witness :
  NoDup (map (@d_key float) dlret_delisting)
  /\ length (merge_outer crsp_delisting dlret_delisting) = 5%nat.
Proof.
  assert (H : NoDup (map (@d_key float) dlret_delisting))
    by (repeat constructor; intros []).
  split; [exact H|].
  exact (merge_outer_row_count crsp_delisting dlret_delisting H).
Defined.

(** ** The forward fill *)

Section FillFacts.
Context {A : Type}.

Lemma ffill_from_length (l : list (option A)) :
  forall last, length (ffill_from last l) = length l.
Proof. induction l as [|x t IH]; intros last; cbn; [|rewrite IH]; reflexivity. Qed.

Lemma ffill_from_again (l : list (option A)) :
  forall last, ffill_from last (ffill_from last l) = ffill_from last l.
Proof.
  induction l as [|x t IH]; intros last; cbn; [reflexivity|].
  destruct x as [a|]; cbn.
  - now rewrite IH.
  - destruct last as [b|]; cbn; now rewrite IH.
Qed.

Lemma ffill_from_missing_iff (l : list (option A)) :
  forall (last : option A) (j : nat),
    nth_error (ffill_from last l) j = Some None <->
    last = None /\ (j < length l)%nat
    /\ forall i, (i <= j)%nat -> nth_error l i = Some None.
Proof.
  induction l as [|x t IH]; intros last j.
  - cbn. destruct j; split; try discriminate; intros (_ & H & _); cbn in H; lia.
  - cbn [ffill_from]. destruct j as [|j]; cbn [nth_error length].
    + split.
      * intros [= E]. destruct x as [a|]; [discriminate|].
        repeat split; [exact E|lia|].
        intros i Hi. assert (i = 0)%nat by lia. subst i. reflexivity.
      * intros (-> & _ & H). specialize (H 0%nat (Nat.le_0_l _)). cbn in H.
        inversion H. reflexivity.
    + rewrite IH. split.
      * intros (E & Hj & H). destruct x as [a|]; [discriminate|].
        repeat split; [exact E|lia|].
        intros [|i] Hi; [reflexivity|]. cbn. apply H. lia.
      * intros (-> & Hj & H).
        pose proof (H 0%nat (Nat.le_0_l _)) as H0. cbn in H0. inversion H0; subst x.
        repeat split; [lia|].
        intros i Hi. apply (H (S i)). lia.
Qed.
End FillFacts.

Section FilledTable.
Context {F : Type} {N : Num F}.

Lemma map_map3 {A B C D E : Type} (g : D -> E) (f : A -> B -> C -> D) (h : A -> E)
    (l : list A) :
  (forall x y z, g (f x y z) = h x) ->
  forall (m : list B) (n : list C),
    length m = length l -> length n = length l ->
    map g (map3 f l m n) = map h l.
Proof.
  intros Hg. induction l as [|x l IH]; intros [|y m] [|z n] Hm Hn;
    cbn in *; try discriminate; [reflexivity|].
  rewrite Hg, IH by lia. reflexivity.
Qed.

Lemma map3_second {A B C D : Type} (g : D -> B) (f : A -> B -> C -> D) (l : list A) :
  (forall x y z, g (f x y z) = y) ->
  forall (m : list B) (n : list C),
    length m = length l -> length n = length l ->
    map g (map3 f l m n) = m.
Proof.
  intros Hg. induction l as [|x l IH]; intros [|y m] [|z n] Hm Hn;
    cbn in *; try discriminate; [reflexivity|].
  rewrite Hg, IH by lia. reflexivity.
Qed.

Lemma map3_third {A B C D : Type} (g : D -> C) (f : A -> B -> C -> D) (l : list A) :
  (forall x y z, g (f x y z) = z) ->
  forall (m : list B) (n : list C),
    length m = length l -> length n = length l ->
    map g (map3 f l m n) = n.
Proof.
  intros Hg. induction l as [|x l IH]; intros [|y m] [|z n] Hm Hn;
    cbn in *; try discriminate; [reflexivity|].
  rewrite Hg, IH by lia. reflexivity.
Qed.

Lemma stocks_filled_keys (ms : list (merged F)) :
  map (@s_key F) (stocks_filled ms) = map (@m_key F) ms.
Proof.
  unfold stocks_filled. apply map_map3; [reflexivity| |];
    unfold ffill; now rewrite ffill_from_length, length_map.
Qed.

Lemma stocks_filled_shrcd (ms : list (merged F)) :
  map (@shrcd F) (stocks_filled ms) = ffill (map (@m_shrcd F) ms).
Proof.
  unfold stocks_filled. apply map3_second; [reflexivity| |];
    unfold ffill; now rewrite ffill_from_length, length_map.
Qed.

Lemma stocks_filled_exchcd (ms : list (merged F)) :
  map (@exchcd F) (stocks_filled ms) = ffill (map (@m_exchcd F) ms).
Proof.
  unfold stocks_filled. apply map3_third; [reflexivity| |];
    unfold ffill; now rewrite ffill_from_length, length_map.
Qed.

(** X5. After the fill a row of the table has no share code exactly when
    no row at or above it in the merged table, of whatever security, has
    one; the same holds for the exchange code. *)
Theorem filled_code_missing_iff (ms : list (merged F)) (j : nat) (s : stock F) :
  nth_error (stocks_filled ms) j = Some s ->
  (shrcd s = None <->
   forall i m, (i <= j)%nat -> nth_error ms i = Some m -> m_shrcd m = None)
  /\ (exchcd s = None <->
      forall i m, (i <= j)%nat -> nth_error ms i = Some m -> m_exchcd m = None).
Proof.
  intros Hs.
  assert (Hlen : (j < length ms)%nat).
  { assert (H : (j < length (map (@s_key F) (stocks_filled ms)))%nat)
      by (rewrite length_map; apply nth_error_Some; congruence).
    now rewrite stocks_filled_keys, length_map in H. }
  assert (Hcol : forall (get : stock F -> option Z) (col : merged F -> option Z),
             map get (stocks_filled ms) = ffill (map col ms) ->
             (get s = None <->
              forall i m, (i <= j)%nat -> nth_error ms i = Some m -> col m = None)).
  { intros get col E.
    assert (Hget : nth_error (ffill (map col ms)) j = Some (get s))
      by (rewrite <- E, nth_error_map, Hs; reflexivity).
    split.
    - intros Hn. rewrite Hn in Hget.
      apply ffill_from_missing_iff in Hget. destruct Hget as (_ & _ & Hall).
      intros i m Hi Hm. specialize (Hall i Hi).
      rewrite nth_error_map, Hm in Hall. cbn in Hall. congruence.
    - intros Hall.
      assert (Hnone : nth_error (ffill (map col ms)) j = Some None).
      { apply ffill_from_missing_iff. repeat split; [now rewrite length_map|].
        intros i Hi. rewrite nth_error_map.
        destruct (nth_error ms i) as [m|] eqn:Hm.
        - cbn. now rewrite (Hall i m Hi Hm).
        - apply nth_error_None in Hm. lia. }
      congruence. }
  split; apply Hcol; [apply stocks_filled_shrcd|apply stocks_filled_exchcd].
Qed.

(** X6. Filling twice is filling once. *)
Theorem ffill_idempotent {A : Type} (l : list (option A)) : ffill (ffill l) = ffill l.
Proof. apply ffill_from_again. Qed.
End FilledTable.

Lemma filled_code_missing_iff_witness :
  exists s : stock float,
    nth_error (stocks_filled (merge_outer (clean_crsp crsp_one_listed)
                                (clean_dlret dlret_other_security))) 1 = Some s
    /\ (shrcd s = None <->
        forall i m, (i <= 1)%nat ->
                    nth_error (merge_outer (clean_crsp crsp_one_listed)
                                 (clean_dlret dlret_other_security)) i = Some m ->
                    m_shrcd m = None).
Proof.
  eexists. split; [vm_compute; reflexivity|].
  apply (@filled_code_missing_iff float _
           (merge_outer (clean_crsp crsp_one_listed) (clean_dlret dlret_other_security))
           1%nat).
  vm_compute. reflexivity.
Defined.

(** ** The enriched panel as a table *)

Section EnrichedTable.
Context {F : Type} {N : Num F}.

Lemma attach_lme_rows (rows : list (stock F)) : map (@row F) (attach_lme rows) = rows.
Proof. rewrite attach_lme_scan. apply scan_lme_rows. Qed.

Lemma clean_crsp_keys (crsp_raw : list (crsp_row F)) (k : Z * ym) :
  In k (map (@c_key F) (clean_crsp crsp_raw)) <-> In k (map (@c_key F) crsp_raw).
Proof.
  unfold clean_crsp. rewrite map_map.
  change (fun x => c_key (abs_prc x)) with (@c_key F).
  split; apply Permutation_in; [|symmetry]; apply Permutation_map, sort_values_perm.
Qed.

Lemma clean_dlret_keys (dlret_raw : list (dl_row F)) (k : Z * ym) :
  In k (map (@d_key F) (clean_dlret dlret_raw)) <-> In k (map (@d_key F) dlret_raw).
Proof.
  unfold clean_dlret.
  split; apply Permutation_in; [|symmetry]; apply Permutation_map, sort_values_perm.
Qed.

(** X7. The enriched panel is sorted by security and date; the fill, the
    sort and the lag add and drop no row of the merged table; and its
    security-months are those of the raw security table together with those
    of the raw delisting table. *)
Theorem enriched_rows_and_keys
    (crsp_raw : list (crsp_row F)) (dlret_raw : list (dl_row F)) :
  Sorted (fun a b => key_leb (s_key a) (s_key b) = true)
    (map (@row F) (enriched crsp_raw dlret_raw))
  /\ length (enriched crsp_raw dlret_raw)
     = length (merge_outer (clean_crsp crsp_raw) (clean_dlret dlret_raw))
  /\ (forall k : Z * ym,
        In k (map (fun r => s_key (row r)) (enriched crsp_raw dlret_raw)) <->
        In k (map (@c_key F) crsp_raw) \/ In k (map (@d_key F) dlret_raw)).
Proof.
  unfold enriched.
  set (ms := merge_outer (clean_crsp crsp_raw) (clean_dlret dlret_raw)).
  split; [|split].
  - rewrite attach_lme_rows. apply sort_values_sorted.
    intros a b. apply key_leb_total.
  - rewrite <- (length_map (@row F)), attach_lme_rows.
    rewrite (Permutation_length (sort_values_perm _ _)).
    rewrite <- (length_map (@s_key F)), stocks_filled_keys. apply length_map.
  - intros k. rewrite <- (map_map (@row F) (@s_key F)), attach_lme_rows.
    transitivity (In k (map (@m_key F) ms)).
    + rewrite <- stocks_filled_keys.
      split; apply Permutation_in; [|symmetry]; apply Permutation_map, sort_values_perm.
    + unfold ms. rewrite merge_outer_key_In, clean_crsp_keys, clean_dlret_keys.
      reflexivity.
Qed.
End EnrichedTable.

(** ** The analysis panel *)

Section PanelFacts.
Context {F : Type} {N : Num F}.

Lemma dropna_In_iff (l : list (lagged F)) (p : panel_row F) :
  In p (dropna l) <-> exists r, In r l /\ complete_row r = Some p.
Proof.
  split; [apply dropna_In|].
  intros (r & Hr & E). induction l as [|x t IH]; [contradiction|].
  cbn. destruct Hr as [->|Hr].
  - rewrite E. now left.
  - destruct (complete_row x); [right|]; now apply IH.
Qed.

Lemma scan_lme_predecessor (rows : list (stock F)) :
  forall (prev : option (stock F)) (r : lagged F) (v : F),
    In r (scan_lme prev rows) -> lme r = Some v ->
    exists p, (prev = Some p \/ In p rows)
              /\ permno p = permno (row r)
              /\ daten p = daten (row r) - 1
              /\ v = me p.
Proof.
  induction rows as [|s t IH]; intros prev r v H Hv; cbn in H; [contradiction|].
  destruct H as [<-|H].
  - cbn in Hv. destruct prev as [p|]; [|discriminate].
    apply lag_of_Some in Hv. destruct Hv as (Hp & Hd & ->).
    exists p. cbn. auto.
  - destruct (IH _ _ _ H Hv) as (p & [[= <-]|Hp] & H1 & H2 & H3).
    + exists s. repeat split; auto. right. now left.
    + exists p. repeat split; auto. right. now right.
Qed.

Lemma complete_row_fields (r : lagged F) (p : panel_row F) :
  complete_row r = Some p ->
  lme r = Some (p_lme p)
  /\ p_permno p = permno (row r)
  /\ p_year p = year (date (row r)) /\ p_month p = month (date (row r))
  /\ p_prc p = prc (row r) /\ p_shrout p = shrout (row r) /\ p_ret p = ret (row r).
Proof.
  unfold complete_row. destruct (lme r) as [l|]; [|discriminate].
  destruct (_ || _); [discriminate|]. intros [= <-]. cbn. repeat split.
Qed.

(** X8. Every row of the analysis panel has a predecessor in the enriched
    panel: a row of the same security, dated one month earlier, whose market
    equity is the row's lagged market equity.  So the first observed month
    of a security, and the month after a gap, never enter the panel. *)
Theorem panel_row_has_previous_month
    (crsp_raw : list (crsp_row F)) (dlret_raw : list (dl_row F)) (p : panel_row F) :
  In p (stocks crsp_raw dlret_raw) ->
  exists prev : lagged F,
    In prev (enriched crsp_raw dlret_raw)
    /\ permno (row prev) = p_permno p
    /\ daten (row prev) = p_year p * 12 + p_month p - 1
    /\ me (row prev) = p_lme p.
Proof.
  unfold stocks, share_exchange_filter. intros H.
  apply dropna_In in H. destruct H as (r & Hr & E).
  apply filter_In in Hr. destruct Hr as [Hr _].
  apply complete_row_fields in E.
  destruct E as (Hl & Hp & Hy & Hm & _).
  unfold enriched in *.
  set (rows := sort_values _ _) in *.
  rewrite attach_lme_scan in Hr.
  destruct (scan_lme_predecessor _ _ r Hr Hl) as (q & [Hq|Hq] & H1 & H2 & H3);
    [discriminate|].
  assert (Hin : In q (map (@row F) (attach_lme rows)))
    by (rewrite attach_lme_scan, scan_lme_rows; exact Hq).
  apply in_map_iff in Hin. destruct Hin as (prev & <- & Hprev).
  exists prev. repeat split; [exact Hprev|congruence| |congruence].
  rewrite H2. unfold daten. rewrite Hy, Hm. reflexivity.
Qed.
End PanelFacts.

(** X9. In exact arithmetic the analysis panel is exactly the set of rows
    of the enriched panel whose share code is 10 or 11, whose exchange code
    is 1, 2 or 3 and whose lagged market equity is defined, projected to
    security, year, month, price, shares, lag and total return. *)
Theorem panel_membership
    (crsp_raw : list (crsp_row R)) (dlret_raw : list (dl_row R)) (p : panel_row R) :
  In p (stocks crsp_raw dlret_raw) <->
  exists r : lagged R,
    In r (enriched crsp_raw dlret_raw)
    /\ (shrcd (row r) = Some 10 \/ shrcd (row r) = Some 11)
    /\ (exchcd (row r) = Some 1 \/ exchcd (row r) = Some 2 \/ exchcd (row r) = Some 3)
    /\ lme r = Some (p_lme p)
    /\ p_permno p = permno (row r)
    /\ p_year p = year (date (row r)) /\ p_month p = month (date (row r))
    /\ p_prc p = prc (row r) /\ p_shrout p = shrout (row r) /\ p_ret p = ret (row r).
Proof.
  assert (Hcode : forall (c : option Z) (v : Z), code_is c v = true <-> c = Some v).
  { intros [x|] v; cbn; [rewrite Z.eqb_eq|]; split; congruence. }
  unfold stocks, share_exchange_filter. rewrite dropna_In_iff. split.
  - intros (r & Hr & E). apply filter_In in Hr. destruct Hr as [Hr Hc].
    unfold common_on_major in Hc.
    rewrite andb_true_iff, !orb_true_iff, !Hcode in Hc. destruct Hc as [Hs He].
    exists r. split; [exact Hr|]. split; [exact Hs|]. split; [tauto|].
    now apply complete_row_fields.
  - intros (r & Hr & Hs & He & Hl & Hp & Hy & Hm & Hprc & Hsh & Hret).
    exists r. split.
    + apply filter_In. split; [exact Hr|]. unfold common_on_major.
      rewrite andb_true_iff, !orb_true_iff, !Hcode. tauto.
    + unfold complete_row. rewrite Hl. cbn. f_equal.
      destruct p. cbn in *. congruence.
Qed.

Lemma panel_row_has_previous_month_witness :
  let p := {| p_permno := 2; p_year := 2020; p_month := 2; p_prc := 5%float;
              p_shrout := 10%float; p_lme := 40%float; p_ret := 0.25%float |} in
  In p (stocks crsp_delisting dlret_delisting)
  /\ exists prev : lagged float,
      In prev (enriched crsp_delisting dlret_delisting)
      /\ permno (row prev) = 2
      /\ daten (row prev) = 2020 * 12 + 2 - 1
      /\ me (row prev) = 40%float.
Proof.
  intros p.
  assert (H : In p (stocks crsp_delisting dlret_delisting))
    by (vm_compute; right; left; reflexivity).
  split; [exact H|].
  exact (panel_row_has_previous_month crsp_delisting dlret_delisting p H).
Defined.

Section PanelOrder.
Context {F : Type} {N : Num F}.

Lemma StronglySorted_map_inv {A B : Type} (R : B -> B -> Prop) (f : A -> B) (l : list A) :
  StronglySorted R (map f l) -> StronglySorted (fun a b => R (f a) (f b)) l.
Proof.
  induction l as [|x t IH]; cbn; intros H; [constructor|].
  inversion H as [|? ? Ht Hx]; subst. constructor; [now apply IH|].
  rewrite Forall_forall in *. intros y Hy. apply Hx. now apply in_map.
Qed.

Lemma complete_row_key (r : lagged F) (p : panel_row F) :
  complete_row r = Some p -> (p_permno p, p_ym p) = s_key (row r).
Proof.
  intros E. apply complete_row_fields in E.
  destruct E as (_ & Hp & Hy & Hm & _).
  unfold s_key, p_ym. rewrite Hp, Hy, Hm. now destruct (date (row r)).
Qed.

Lemma dropna_filter_sorted (f : lagged F -> bool) (l : list (lagged F)) :
  StronglySorted (fun a b => key_leb (s_key (row a)) (s_key (row b)) = true) l ->
  StronglySorted
    (fun a b => key_leb (p_permno a, p_ym a) (p_permno b, p_ym b) = true)
    (dropna (filter f l)).
Proof.
  induction 1 as [|r t Ht IH Hr]; cbn; [constructor|].
  destruct (f r); [|exact IH]. cbn.
  destruct (complete_row r) as [p|] eqn:E; [|exact IH].
  constructor; [exact IH|].
  rewrite Forall_forall in *. intros q Hq.
  apply dropna_In in Hq. destruct Hq as (r' & Hr' & E').
  apply filter_In in Hr'. destruct Hr' as [Hr' _].
  rewrite (complete_row_key _ E), (complete_row_key _ E'). now apply Hr.
Qed.

(** X10. The analysis panel is sorted by security, then year, then month:
    the filter and the removal of incomplete rows keep the order of the
    enriched panel. *)
Theorem panel_sorted (crsp_raw : list (crsp_row F)) (dlret_raw : list (dl_row F)) :
  StronglySorted
    (fun a b => key_leb (p_permno a, p_ym a) (p_permno b, p_ym b) = true)
    (stocks crsp_raw dlret_raw).
Proof.
  unfold stocks, share_exchange_filter. apply dropna_filter_sorted.
  apply StronglySorted_map_inv with (R := fun a b => key_leb (s_key a) (s_key b) = true).
  apply Sorted_StronglySorted.
  - intros a b c. apply key_leb_trans.
  - unfold enriched. rewrite attach_lme_scan, scan_lme_rows.
    apply sort_values_sorted. intros a b. apply key_leb_total.
Qed.
End PanelOrder.

(** ** The order of the aggregated output *)

Section OutputOrder.
Context {F : Type} {N : Num F}.

Lemma StronglySorted_strict {A : Type} (R : A -> A -> Prop) (l : list A) :
  StronglySorted R l -> NoDup l -> StronglySorted (fun a b => R a b /\ a <> b) l.
Proof.
  induction 1 as [|x t Ht IH Hx]; intros Hnd; [constructor|].
  inversion Hnd as [|? ? Hnin Hnd']; subst. constructor; [now apply IH|].
  rewrite Forall_forall in *. intros y Hy. split; [now apply Hx|].
  intros ->. contradiction.
Qed.

Lemma StronglySorted_filter_keep {A : Type} (R : A -> A -> Prop) (f : A -> bool)
    (l : list A) :
  StronglySorted R l -> StronglySorted R (filter f l).
Proof.
  induction 1 as [|x t Ht IH Hx]; cbn; [constructor|].
  destruct (f x); [|exact IH]. constructor; [exact IH|].
  rewrite Forall_forall in *. intros y Hy. apply filter_In in Hy. now apply Hx.
Qed.

Lemma french_date_increasing (french : list (french_row F)) :
  StronglySorted (fun a b => ym_leb a b = true /\ a <> b) (french_date french).
Proof.
  unfold french_date. apply StronglySorted_strict.
  - apply Sorted_StronglySorted.
    + intros a b c. apply ym_leb_trans.
    + apply sort_values_sorted. intros a b. apply ym_leb_total.
  - apply sort_values_NoDup, drop_duplicates_NoDup.
Qed.

(** X11. The rows of the aggregated output come in strictly increasing
    calendar order, whatever the order of the rows of the reference series
    and of the panel. *)
Theorem monthly_returns_chronological
    (french : list (french_row F)) (stocks : list (panel_row F))
    (out : list (monthly_return F)) :
  monthly_returns french stocks = Some out ->
  StronglySorted
    (fun a b => ym_leb (mr_ym a) (mr_ym b) = true /\ mr_ym a <> mr_ym b) out.
Proof.
  intros Hout.
  apply StronglySorted_map_inv
    with (R := fun a b : ym => ym_leb a b = true /\ a <> b) (f := @mr_ym F).
  apply monthly_returns_keys in Hout. rewrite Hout.
  unfold date_both. rewrite merge_inner_keys_filter.
  - apply StronglySorted_filter_keep, french_date_increasing.
  - apply sort_values_NoDup, drop_duplicates_NoDup.
Qed.
End OutputOrder.

Lemma monthly_returns_chronological_witness :
  exists out : list (monthly_return float),
    monthly_returns french_q1 (stocks crsp_delisting dlret_delisting) = Some out
    /\ map (@mr_ym float) out = [ym_of 2020 2; ym_of 2020 3]
    /\ StronglySorted
         (fun a b => ym_leb (mr_ym a) (mr_ym b) = true /\ mr_ym a <> mr_ym b) out.
Proof.
  eexists. split; [vm_compute; reflexivity|].
  split; [vm_compute; reflexivity|].
  apply (@monthly_returns_chronological float _ french_q1
           (stocks crsp_delisting dlret_delisting)).
  vm_compute. reflexivity.
Defined.

(** ** The value-weighted return as a weighted average *)

Lemma Rsum_scale {A : Type} (f : A -> R) (c : R) (l : list A) :
  Rsum (map (fun x => c * f x)%R l) = (c * Rsum (map f l))%R.
Proof. induction l as [|x t IH]; cbn; [|rewrite IH]; ring. Qed.

Lemma Rsum_plus {A : Type} (f g : A -> R) (l : list A) :
  Rsum (map (fun x => f x + g x)%R l) = (Rsum (map f l) + Rsum (map g l))%R.
Proof. induction l as [|x t IH]; cbn; [|rewrite IH]; ring. Qed.

Lemma Rsum_le {A : Type} (f g : A -> R) (l : list A) :
  Forall (fun x => f x <= g x)%R l -> (Rsum (map f l) <= Rsum (map g l))%R.
Proof. induction 1 as [|x t Hx _ IH]; cbn; lra. Qed.

Lemma start_value_R (rows : list (panel_row R)) :
  start_value rows = Rsum (map (@p_lme R) rows).
Proof. unfold start_value. apply nansum_R. Qed.

Lemma end_value_R (rows : list (panel_row R)) :
  end_value rows
  = (Rsum (map (@p_lme R) rows) + Rsum (map (fun s => p_lme s * p_ret s) rows))%R.
Proof.
  unfold end_value. rewrite nansum_R. cbn.
  rewrite <- Rsum_plus. f_equal. apply map_ext. intros s. ring.
Qed.

Lemma value_monthly_return_R (rows : list (panel_row R)) (r : R) :
  value_monthly_return rows r
  = (Rsum (map (fun s => p_lme s * p_ret s) rows) / Rsum (map (@p_lme R) rows) - r)%R.
Proof.
  unfold value_monthly_return. rewrite end_value_R, start_value_R. cbn.
  f_equal. f_equal. ring.
Qed.

Lemma equal_monthly_return_R (rows : list (panel_row R)) (r : R) :
  equal_monthly_return rows r
  = (Rsum (map (@p_ret R) rows) / INR (length rows) - r)%R.
Proof.
  unfold equal_monthly_return. rewrite mean_R. unfold Rmean.
  now rewrite length_map.
Qed.

(** X12. In exact arithmetic, when the total lagged market value of a month
    is not zero, the value-weighted excess return is the average of the
    constituents' total returns weighted by [lme / sum lme], less the
    risk-free rate, and the weights add up to one. *)
Theorem value_weighted_is_weighted_average (rows : list (panel_row R)) (r : R) :
  start_value rows <> 0%R ->
  value_monthly_return rows r
  = (Rsum (map (fun s => p_lme s / start_value rows * p_ret s) rows) - r)%R
  /\ Rsum (map (fun s => p_lme s / start_value rows)%R rows) = 1%R.
Proof.
  intros H. rewrite value_monthly_return_R.
  rewrite start_value_R in *.
  set (T := Rsum (map (@p_lme R) rows)) in *.
  split.
  - f_equal.
    rewrite (map_ext (fun s => p_lme s / T * p_ret s)%R
               (fun s => / T * (p_lme s * p_ret s))%R)
      by (intros s; unfold Rdiv; ring).
    rewrite Rsum_scale. unfold Rdiv. ring.
  - rewrite (map_ext (fun s => p_lme s / T)%R (fun s => / T * p_lme s)%R)
      by (intros s; unfold Rdiv; ring).
    rewrite Rsum_scale. fold T. now field.
Qed.

Lemma value_weighted_is_weighted_average_witness :
  start_value panel_feb_R <> 0%R
  /\ Rsum (map (fun s => p_lme s / start_value panel_feb_R)%R panel_feb_R) = 1%R.
Proof.
  assert (H : start_value panel_feb_R <> 0%R).
  { rewrite start_value_R. cbn. lra. }
  split; [exact H|].
  exact (proj2 (@value_weighted_is_weighted_average panel_feb_R (1 / 800)%R H)).
Defined.

(** X13. In exact arithmetic, if no constituent of a month has a negative
    lagged market value, the total is positive and every total return lies
    between [a] and [b], then so does the value-weighted return before the
    risk-free rate is taken off; the equal-weighted return of a month with
    at least one constituent lies between them as well. *)
Theorem monthly_returns_between_extremes (rows : list (panel_row R)) (r a b : R) :
  Forall (fun s => 0 <= p_lme s)%R rows ->
  (0 < start_value rows)%R ->
  Forall (fun s => a <= p_ret s <= b)%R rows ->
  (a - r <= value_monthly_return rows r <= b - r)%R
  /\ (a - r <= equal_monthly_return rows r <= b - r)%R.
Proof.
  intros Hw Hpos Hret.
  assert (Hne : rows <> []).
  { intros ->. rewrite start_value_R in Hpos. cbn in Hpos. lra. }
  rewrite start_value_R in Hpos.
  set (T := Rsum (map (@p_lme R) rows)) in *.
  assert (Hboth : Forall (fun s => 0 <= p_lme s /\ a <= p_ret s <= b)%R rows).
  { rewrite Forall_forall in *. intros s Hs. split; [now apply Hw|now apply Hret]. }
  assert (Hlo : (a * T <= Rsum (map (fun s => p_lme s * p_ret s) rows))%R).
  { unfold T. rewrite <- Rsum_scale. apply Rsum_le.
    eapply Forall_impl; [|exact Hboth]. cbn. intros s [H0 [H1 H2]]. nra. }
  assert (Hhi : (Rsum (map (fun s => p_lme s * p_ret s) rows) <= b * T)%R).
  { unfold T. rewrite <- Rsum_scale. apply Rsum_le.
    eapply Forall_impl; [|exact Hboth]. cbn. intros s [H0 [H1 H2]]. nra. }
  assert (Hn : (0 < INR (length rows))%R).
  { apply lt_0_INR. destruct rows; [contradiction|cbn; lia]. }
  assert (Hlo' : (a * INR (length rows) <= Rsum (map (@p_ret R) rows))%R).
  { clear -Hret. induction Hret as [|s t [H1 H2] _ IH]; [cbn; lra|].
    cbn [length map Rsum]. rewrite S_INR. lra. }
  assert (Hhi' : (Rsum (map (@p_ret R) rows) <= b * INR (length rows))%R).
  { clear -Hret. induction Hret as [|s t [H1 H2] _ IH]; [cbn; lra|].
    cbn [length map Rsum]. rewrite S_INR. lra. }
  rewrite value_monthly_return_R, equal_monthly_return_R. fold T.
  assert (Hdiv : forall x y c : R, (0 < y -> c * y <= x -> c <= x / y)%R).
  { intros x y c Hy H. apply Rmult_le_reg_r with y; [exact Hy|].
    unfold Rdiv. rewrite Rmult_assoc, Rinv_l by lra. lra. }
  assert (Hdiv' : forall x y c : R, (0 < y -> x <= c * y -> x / y <= c)%R).
  { intros x y c Hy H. apply Rmult_le_reg_r with y; [exact Hy|].
    unfold Rdiv. rewrite Rmult_assoc, Rinv_l by lra. lra. }
  pose proof (Hdiv _ _ _ Hpos Hlo). pose proof (Hdiv' _ _ _ Hpos Hhi).
  pose proof (Hdiv _ _ _ Hn Hlo'). pose proof (Hdiv' _ _ _ Hn Hhi').
  lra.
Qed.

Lemma monthly_returns_between_extremes_witness :
  Forall (fun s => 0 <= p_lme s)%R panel_feb_R
  /\ (0 < start_value panel_feb_R)%R
  /\ Forall (fun s => 1 / 10 <= p_ret s <= 2 / 10)%R panel_feb_R
  /\ (1 / 10 - 1 / 800 <= value_monthly_return panel_feb_R (1 / 800)
      <= 2 / 10 - 1 / 800)%R.
Proof.
  assert (Hw : Forall (fun s => 0 <= p_lme s)%R panel_feb_R)
    by (repeat constructor; cbn; lra).
  assert (Hp : (0 < start_value panel_feb_R)%R)
    by (rewrite start_value_R; cbn; lra).
  assert (Hr : Forall (fun s => 1 / 10 <= p_ret s <= 2 / 10)%R panel_feb_R)
    by (repeat constructor; cbn; lra).
  repeat split; try assumption;
    apply (monthly_returns_between_extremes (1 / 800)%R Hw Hp Hr).
Defined.

(** X14. In exact arithmetic a constituent whose lagged market value is 0
    (a security whose previous month had no price, or was a delisting only)
    has no effect on the total lagged market value nor on the value-weighted
    return of its month. *)
Theorem zero_weight_row_is_neutral
    (before after : list (panel_row R)) (s : panel_row R) (r : R) :
  p_lme s = 0%R ->
  start_value (before ++ s :: after) = start_value (before ++ after)
  /\ value_monthly_return (before ++ s :: after) r
     = value_monthly_return (before ++ after) r.
Proof.
  intros H.
  assert (Hs : start_value (before ++ s :: after) = start_value (before ++ after)).
  { rewrite !start_value_R, !map_app, !Rsum_app. cbn. rewrite H. ring. }
  split; [exact Hs|].
  rewrite !value_monthly_return_R, <- !start_value_R, Hs.
  f_equal. f_equal. rewrite !map_app, !Rsum_app. cbn. rewrite H. ring.
Qed.

Lemma zero_weight_row_is_neutral_witness :
  let s := {| p_permno := 9; p_year := 2020; p_month := 2; p_prc := 3%R;
              p_shrout := 7%R; p_lme := 0%R; p_ret := (1 / 2)%R |} in
  p_lme s = 0%R
  /\ value_monthly_return ([] ++ s :: panel_feb_R) (1 / 800)%R
     = value_monthly_return ([] ++ panel_feb_R) (1 / 800)%R.
Proof.
  intros s.
  assert (H : p_lme s = 0%R) by reflexivity.
  split; [exact H|].
  exact (proj2 (zero_weight_row_is_neutral [] panel_feb_R s (1 / 800)%R H)).
Defined.

(** X15. In exact arithmetic the value-weighted return does not depend on
    the unit the market values are counted in: multiplying every lagged
    market value of a month by the same nonzero factor leaves it unchanged,
    when the total is not zero. *)
Theorem value_weighted_unit_free (rows rows' : list (panel_row R)) (c r : R) :
  c <> 0%R ->
  start_value rows <> 0%R ->
  Forall2 (fun s s' => p_lme s' = (c * p_lme s)%R /\ p_ret s' = p_ret s) rows rows' ->
  value_monthly_return rows' r = value_monthly_return rows r.
Proof.
  intros Hc Hs H.
  assert (Hl : Rsum (map (@p_lme R) rows') = (c * Rsum (map (@p_lme R) rows))%R).
  { clear -H. induction H as [|s s' t t' [E _] _ IH]; cbn; [ring|].
    rewrite E, IH. ring. }
  assert (Hlr : Rsum (map (fun s => p_lme s * p_ret s)%R rows')
                = (c * Rsum (map (fun s => p_lme s * p_ret s)%R rows))%R).
  { clear -H. induction H as [|s s' t t' [E1 E2] _ IH]; cbn; [ring|].
    rewrite E1, E2, IH. ring. }
  rewrite !value_monthly_return_R, Hl, Hlr.
  rewrite start_value_R in Hs. now field.
Qed.

Lemma value_weighted_unit_free_witness :
  let thousand (s : panel_row R) :=
    {| p_permno := p_permno s; p_year := p_year s; p_month := p_month s;
       p_prc := p_prc s; p_shrout := p_shrout s;
       p_lme := (1000 * p_lme s)%R; p_ret := p_ret s |} in
  value_monthly_return (map thousand panel_feb_R) (1 / 800)%R
  = value_monthly_return panel_feb_R (1 / 800)%R.
Proof.
  intros thousand.
  apply (@value_weighted_unit_free panel_feb_R (map thousand panel_feb_R) 1000%R).
  - lra.
  - rewrite start_value_R. cbn. lra.
  - repeat constructor.
Defined.

(** ** The compared table *)

Section Compared.
Context {F : Type} {N : Num F}.

Lemma unique_month_row (french : list (french_row F)) (k : ym) :
  NoDup (map (@f_ym F) french) -> In k (map (@f_ym F) french) ->
  exists f, filter (fun f => ym_eqb k (f_ym f)) french = [f].
Proof.
  induction french as [|g t IH]; cbn; intros Hnd Hin; [contradiction|].
  inversion Hnd as [|? ? Hg Ht]; subst.
  destruct (ym_eqb k (f_ym g)) eqn:E.
  - apply ym_eqb_eq in E. subst k. exists g. f_equal.
    destruct (filter _ t) as [|e es] eqn:Ef; [reflexivity|].
    assert (He : In e (filter (fun f => ym_eqb (f_ym g) (f_ym f)) t))
      by (rewrite Ef; now left).
    apply filter_In in He. destruct He as [He Ee]. apply ym_eqb_eq in Ee.
    exfalso. apply Hg. rewrite Ee. now apply in_map.
  - destruct Hin as [Hin|Hin].
    + subst k. now rewrite ym_eqb_refl in E.
    + now apply IH.
Qed.

(** X16. When the reference series has one row a month, the compared table
    has exactly the rows of the aggregated output, in the same order, each
    paired with the reference row of its month, which is the row its
    risk-free rate was read from. *)
Theorem both_pairs_each_month_once
    (french : list (french_row F)) (stocks : list (panel_row F))
    (out : list (monthly_return F)) :
  NoDup (map (@f_ym F) french) ->
  monthly_returns french stocks = Some out ->
  map fst (both out french) = out
  /\ forall m f, In (m, f) (both out french) ->
                 In f french /\ f_ym f = mr_ym m
                 /\ rf_of french (mr_ym m) = Some (rf f).
Proof.
  intros Hnd Hout.
  assert (Hkey : forall m, In m out -> In (mr_ym m) (map (@f_ym F) french)).
  { intros m Hm. pose proof Hout as Hk. apply monthly_returns_keys in Hk.
    assert (Hin : In (mr_ym m) (date_both french stocks))
      by (rewrite <- Hk; now apply in_map).
    now apply date_both_In in Hin. }
  split.
  - clear Hout. unfold both. induction out as [|m t IH]; cbn; [reflexivity|].
    destruct (unique_month_row french (mr_ym m) Hnd (Hkey m (or_introl eq_refl)))
      as [f Hf].
    rewrite Hf. cbn. f_equal. apply IH. intros m' Hm'. apply Hkey. now right.
  - intros m f H. unfold both in H. apply in_flat_map in H.
    destruct H as (m' & Hm' & H). apply in_map_iff in H.
    destruct H as (f' & [= <- <-] & Hf). apply filter_In in Hf.
    destruct Hf as [Hf E]. apply ym_eqb_eq in E.
    split; [exact Hf|]. split; [now symmetry|].
    destruct (unique_month_row french (mr_ym m') Hnd (Hkey m' Hm')) as [g Hg].
    assert (Hfg : In f' (filter (fun f => ym_eqb (mr_ym m') (f_ym f)) french))
      by (apply filter_In; split; [exact Hf|now apply ym_eqb_eq]).
    rewrite Hg in Hfg. destruct Hfg as [<-|[]].
    unfold rf_of.
    replace (filter (fun f => (f_year f =? year (mr_ym m')) && (f_month f =? month (mr_ym m')))
               french)
      with (filter (fun f => ym_eqb (mr_ym m') (f_ym f)) french).
    + now rewrite Hg.
    + apply filter_ext. intros f. unfold ym_eqb. cbn.
      now rewrite (Z.eqb_sym (mr_year m')), (Z.eqb_sym (mr_month m')).
Qed.
End Compared.

Lemma both_pairs_each_month_once_witness :
  exists out : list (monthly_return float),
    monthly_returns french_q1 (stocks crsp_delisting dlret_delisting) = Some out
    /\ map fst (both out french_q1) = out.
Proof.
  assert (Hnd : NoDup (map (@f_ym float) french_q1)).
  { repeat (constructor; [cbn; intuition discriminate|]). constructor. }
  eexists. split; [vm_compute; reflexivity|].
  refine (proj1 (@both_pairs_each_month_once float _ french_q1
                   (stocks crsp_delisting dlret_delisting) _ Hnd _)).
  vm_compute. reflexivity.
Defined.

(** ** Missing months in the summary statistics *)

Section MissingMonths.
Context {F : Type} {N : Num F}.


End MissingMonths.



(** ** The largest deviation *)

Lemma fold_left_Rmax_bound (t : list R) :
  forall x : R,
    (x <= fold_left Rmax t x)%R
    /\ Forall (fun y => y <= fold_left Rmax t x)%R t
    /\ In (fold_left Rmax t x) (x :: t).
Proof.
  induction t as [|y t IH]; intros x; cbn.
  - repeat split; [lra|constructor|now left].
  - destruct (IH (Rmax x y)) as (H1 & H2 & H3).
    pose proof (Rmax_l x y). pose proof (Rmax_r x y).
    repeat split.
    + lra.
    + constructor; [lra|exact H2].
    + destruct H3 as [H3|H3]; [|now right; right].
      rewrite <- H3. unfold Rmax. destruct (Rle_dec x y); [right|]; now left.
Qed.

Lemma nanmax_R (l : list R) :
  nanmax l = match l with
             | [] => None
             | x :: t => Some (fold_left Rmax t x)
             end.
Proof. unfold nanmax. cbn. now rewrite filter_all. Qed.

(** X18. In exact arithmetic the largest deviation is undefined for an
    empty compared table only; otherwise it is the absolute difference of
    the two series on one of the rows, and no row has a larger one. *)
Theorem max_absolute_diff_is_largest (b : list (monthly_return R * french_row R)) :
  (max_absolute_diff b = None <-> b = [])
  /\ forall d : R,
      max_absolute_diff b = Some d ->
      (forall x, In x b -> Rabs (MktRF_VW (fst x) - mktrf (snd x)) <= d)%R
      /\ (exists x, In x b /\ d = Rabs (MktRF_VW (fst x) - mktrf (snd x)))
      /\ (0 <= d)%R.
Proof.
  unfold max_absolute_diff. rewrite nanmax_R.
  destruct b as [|x t]; cbn [abs_diff map].
  - split; [tauto|]. intros d H. discriminate.
  - split; [split; discriminate|].
    intros d [= <-].
    set (f := fun x : monthly_return R * french_row R =>
                nabs (nsub (MktRF_VW (fst x)) (mktrf (snd x)))).
    destruct (fold_left_Rmax_bound (map f t) (f x)) as (H1 & H2 & H3).
    assert (Hle : forall y, In y (x :: t) -> (f y <= fold_left Rmax (map f t) (f x))%R).
    { intros y [<-|Hy]; [exact H1|].
      rewrite Forall_forall in H2. apply H2. now apply in_map. }
    assert (Hex : exists y, In y (x :: t) /\ fold_left Rmax (map f t) (f x) = f y).
    { destruct H3 as [H3|H3].
      - exists x. split; [now left|now symmetry].
      - apply in_map_iff in H3. destruct H3 as (y & Hy & Hin).
        exists y. split; [now right|now symmetry]. }
    assert (Hnn : (0 <= fold_left Rmax (map f t) (f x))%R).
    { destruct Hex as (y & _ & E). rewrite E. apply Rabs_pos. }
    split; [exact Hle|]. split; [exact Hex|exact Hnn].
Qed.

(** ** The correlation *)

Lemma total_R (l : list R) : total l = Rsum l.
Proof. unfold total. cbn. rewrite fold_left_Rplus. ring. Qed.

Lemma valid_pairs_R (a b : list R) : valid_pairs a b = combine a b.
Proof. unfold valid_pairs. cbn. apply filter_all. Qed.

Lemma map2_same {A C : Type} (f : A -> A -> C) (l : list A) :
  map2 f l l = map (fun x => f x x) l.
Proof. induction l as [|x t IH]; cbn; [|rewrite IH]; reflexivity. Qed.

Lemma map2_swap {A B C : Type} (f : A -> B -> C) (l : list A) :
  forall m : list B, map2 f l m = map2 (fun y x => f x y) m l.
Proof.
  induction l as [|x t IH]; intros [|y m]; cbn; try reflexivity.
  now rewrite IH.
Qed.

Lemma combine_same {A : Type} (l : list A) :
  map fst (combine l l) = l /\ map snd (combine l l) = l.
Proof.
  induction l as [|x t [IH1 IH2]]; cbn; [|rewrite IH1, IH2]; split; reflexivity.
Qed.

Lemma combine_swap {A B : Type} (l : list A) :
  forall m : list B,
    map fst (combine m l) = map snd (combine l m)
    /\ map snd (combine m l) = map fst (combine l m).
Proof.
  induction l as [|x t IH]; intros [|y m]; cbn; try (split; reflexivity).
  destruct (IH m) as [-> ->]. split; reflexivity.
Qed.

Lemma cov_same_R (a : list R) :
  cov a a
  = (Rsum (map (fun x => Rsqr (x - Rmean a)) a) * (1 / (INR (length a) - 1)))%R.
Proof.
  unfold cov, average. rewrite total_R, !np_sum_R, map2_same. cbn.
  rewrite minus_IZR, <- INR_IZR_INZ. unfold Rmean. reflexivity.
Qed.

Lemma not_constant_deviation (a : list R) :
  (exists x y, In x a /\ In y a /\ x <> y) ->
  (0 < Rsum (map (fun x => Rsqr (x - Rmean a)) a))%R /\ (2 <= length a)%nat.
Proof.
  intros (x & y & Hx & Hy & Hxy). split.
  - apply Rsum_pos.
    + apply Forall_map, Forall_forall. intros z _. apply Rle_0_sqr.
    + assert (Hz : exists z, In z a /\ z <> Rmean a).
      { destruct (Req_dec x (Rmean a)) as [E|E].
        - exists y. split; [exact Hy|]. congruence.
        - exists x. auto. }
      destruct Hz as (z & Hz & Hne).
      apply Exists_exists. exists (Rsqr (z - Rmean a)). split.
      * apply in_map_iff. exists z. auto.
      * apply Rlt_0_sqr. lra.
  - destruct a as [|u [|v t]]; cbn in *; [destruct Hx| |lia].
    destruct Hx as [<-|[]], Hy as [<-|[]]. contradiction.
Qed.

Lemma corr_same_R (a : list R) :
  (exists x y, In x a /\ In y a /\ x <> y) -> corr a a = Some 1%R.
Proof.
  intros H. apply not_constant_deviation in H. destruct H as [Hpos Hlen].
  unfold corr. rewrite valid_pairs_R.
  destruct (combine_same a) as [E1 E2].
  destruct (combine a a) as [|p ps] eqn:Ec.
  - cbn in E1. subst a. cbn in Hlen. lia.
  - rewrite E1, E2. f_equal. unfold corrcoef, clip_unit.
    set (c := cov a a).
    assert (Hc : (0 < c)%R).
    { unfold c. rewrite cov_same_R. apply Rmult_lt_0_compat; [exact Hpos|].
      apply Rdiv_lt_0_compat; [lra|].
      assert (2 <= INR (length a))%R by (apply (le_INR 2); exact Hlen). lra. }
    assert (Hs : (0 < R_sqrt.sqrt c)%R) by now apply sqrt_lt_R0.
    assert (Hone : (c / R_sqrt.sqrt c / R_sqrt.sqrt c = 1)%R).
    { pose proof (sqrt_def c (Rlt_le _ _ Hc)) as Hd.
      set (s := R_sqrt.sqrt c) in *. rewrite <- Hd. field. lra. }
    change (nmin (nmax (c / R_sqrt.sqrt c / R_sqrt.sqrt c)%R (nofZ (-1))) (nofZ 1) = 1%R).
    rewrite Hone. cbn.
    rewrite Rmax_left by lra. apply Rmin_left. lra.
Qed.

(** X19. In exact arithmetic, when the replicated series equals the
    reference series on every row of the compared table and takes at least
    two different values, the correlation is 1 and the largest deviation
    is 0. *)
Theorem identical_series_compare_perfectly (b : list (monthly_return R * french_row R)) :
  (forall x, In x b -> MktRF_VW (fst x) = mktrf (snd x)) ->
  (exists x y, In x b /\ In y b /\ mktrf (snd x) <> mktrf (snd y)) ->
  correlation b = Some 1%R /\ max_absolute_diff b = Some 0%R.
Proof.
  intros Heq (x & y & Hx & Hy & Hxy). split.
  - unfold correlation, vw_series, mktrf_series.
    rewrite (map_ext_in _ (fun x => mktrf (snd x)) b) by exact Heq.
    apply corr_same_R.
    exists (mktrf (snd x)), (mktrf (snd y)).
    repeat split; [| |exact Hxy]; apply in_map_iff; eauto.
  - unfold max_absolute_diff. rewrite nanmax_R. unfold abs_diff.
    rewrite (map_ext_in _ (fun _ => 0%R) b).
    + destruct b as [|z t]; [destruct Hx|]. cbn. f_equal.
      clear. induction t as [|u t IH]; cbn; [reflexivity|].
      rewrite Rmax_left by lra. exact IH.
    + intros z Hz. cbn. rewrite (Heq z Hz).
      replace (mktrf (snd z) - mktrf (snd z))%R with 0%R by ring. apply Rabs_R0.
Qed.

Lemma max_absolute_diff_is_largest_witness :
  exists d : R,
    max_absolute_diff (both [feb_row_R] french_feb_R) = Some d /\ (0 <= d)%R.
Proof.
  assert (H : max_absolute_diff (both [feb_row_R] french_feb_R)
              = Some (Rabs (MktRF_VW feb_row_R - 1 / 2))).
  { unfold max_absolute_diff. rewrite nanmax_R. reflexivity. }
  eexists. split; [exact H|].
  exact (proj2 (proj2 (proj2 (max_absolute_diff_is_largest _) _ H))).
Defined.

Lemma identical_series_compare_perfectly_witness :
  let month (m : Z) (v : R) : monthly_return R * french_row R :=
    ({| mr_year := 2020; mr_month := m; MktRF_VW := v; MktRF_EW := v;
        Lagged_Mkt_Value := 1%R |},
     {| f_year := 2020; f_month := m; mktrf := v; smb := 0%R; hml := 0%R;
        rf := 0%R |}) in
  correlation [month 1 (1 / 4)%R; month 2 (1 / 2)%R] = Some 1%R
  /\ max_absolute_diff [month 1 (1 / 4)%R; month 2 (1 / 2)%R] = Some 0%R.
Proof.
  intros month.
  apply identical_series_compare_perfectly.
  - intros x [<-|[<-|[]]]; reflexivity.
  - exists (month 1 (1 / 4)%R), (month 2 (1 / 2)%R).
    repeat split; [now left|right; now left|cbn; lra].
Defined.

Lemma map2_ext {A B C : Type} (f g : A -> B -> C) (l : list A) :
  (forall x y, f x y = g x y) -> forall m : list B, map2 f l m = map2 g l m.
Proof.
  intros H. induction l as [|x t IH]; intros [|y m]; cbn; try reflexivity.
  now rewrite H, IH.
Qed.

Lemma cov_swap_R (x y : list R) : length x = length y -> cov x y = cov y x.
Proof.
  intros H. unfold cov. rewrite H. f_equal. f_equal.
  rewrite map2_swap. apply map2_ext. intros u v. cbn. ring.
Qed.

(** X20. In exact arithmetic the correlation does not depend on which of
    the two series is taken first. *)
Theorem corr_symmetric (a b : list R) : corr a b = corr b a.
Proof.
  unfold corr. rewrite !valid_pairs_R.
  destruct (combine_swap a b) as [E1 E2].
  assert (Hl : length (map fst (combine a b)) = length (map snd (combine a b)))
    by now rewrite !length_map.
  destruct (combine a b) as [|p ps] eqn:Eab; destruct (combine b a) as [|q qs] eqn:Eba;
    try reflexivity; try discriminate.
  f_equal. rewrite E1, E2.
  set (u := map fst (p :: ps)) in *. set (v := map snd (p :: ps)) in *.
  unfold corrcoef. rewrite (cov_swap_R u v Hl). f_equal.
  cbn. unfold Rdiv. ring.
Qed.

(** ** Units of the summary statistics *)

Lemma Rmean_scale (c : R) (l : list R) :
  Rmean (map (fun x => c * x)%R l) = (c * Rmean l)%R.
Proof.
  unfold Rmean. rewrite length_map.
  rewrite (Rsum_scale (fun x => x) c l), map_id. unfold Rdiv. ring.
Qed.

Lemma sample_std_scale (c : R) (l : list R) :
  sample_std (map (fun x => c * x)%R l) = (Rabs c * sample_std l)%R.
Proof.
  unfold sample_std. rewrite Rmean_scale, length_map, map_map.
  rewrite (map_ext (fun x => Rsqr (c * x - c * Rmean l))
             (fun x => (Rsqr c * Rsqr (x - Rmean l))%R))
    by (intros x; unfold Rsqr; ring).
  rewrite Rsum_scale. unfold Rdiv. rewrite Rmult_assoc.
  rewrite sqrt_mult_alt by apply Rle_0_sqr.
  now rewrite sqrt_Rsqr_abs.
Qed.

Lemma Rmean_shift (d : R) (l : list R) :
  l <> [] -> Rmean (map (fun x => x + d)%R l) = (Rmean l + d)%R.
Proof.
  intros H. unfold Rmean. rewrite length_map.
  rewrite (Rsum_plus (fun x => x) (fun _ => d) l), map_id.
  assert (Hd : Rsum (map (fun _ : R => d) l) = (INR (length l) * d)%R).
  { clear. induction l as [|x t IH]; [cbn; ring|].
    cbn [map Rsum length]. rewrite IH, S_INR. ring. }
  rewrite Hd.
  assert (Hn : (0 < INR (length l))%R)
    by (apply lt_0_INR; destruct l; [contradiction|cbn; lia]).
  field. lra.
Qed.

(** X21. In exact arithmetic: multiplying a monthly series by a positive
    factor multiplies its annualised mean and its annualised volatility by
    that factor, and leaves the Sharpe ratio unchanged when the volatility
    is not zero; adding a constant to every month leaves the annualised
    volatility unchanged. *)
Theorem statistics_under_change_of_unit (c d : R) (l : list R) :
  (0 < c)%R ->
  annualized_mean (map (fun x => c * x)%R l) = (c * annualized_mean l)%R
  /\ annualized_std (map (fun x => c * x)%R l) = option_map (Rmult c) (annualized_std l)
  /\ (forall v, annualized_std l = Some v -> v <> 0%R ->
                sharpe (map (fun x => c * x)%R l) = sharpe l)
  /\ annualized_std (map (fun x => x + d)%R l) = annualized_std l.
Proof.
  intros Hc.
  assert (Hm : annualized_mean (map (fun x => c * x)%R l) = (c * annualized_mean l)%R).
  { unfold annualized_mean. rewrite !mean_R, Rmean_scale. cbn. ring. }
  assert (Hs : annualized_std (map (fun x => c * x)%R l)
               = option_map (Rmult c) (annualized_std l)).
  { unfold annualized_std. rewrite !std_R, length_map.
    destruct (length l <? 2)%nat; [reflexivity|]. cbn. f_equal.
    rewrite sample_std_scale, (Rabs_right c) by lra. ring. }
  split; [exact Hm|]. split; [exact Hs|]. split.
  - intros v Hv Hne. unfold sharpe. rewrite Hs, Hm, Hv.
    generalize (annualized_mean l). intros m. cbn. f_equal.
    field. split; [exact Hne|lra].
  - unfold annualized_std. rewrite !std_R, length_map.
    destruct (length l <? 2)%nat eqn:E; [reflexivity|]. cbn. do 2 f_equal.
    unfold sample_std. rewrite length_map, map_map.
    assert (Hne : l <> []) by (intros ->; cbn in E; discriminate).
    rewrite (Rmean_shift d Hne). do 3 f_equal.
    apply map_ext. intros x. f_equal. ring.
Qed.

Lemma statistics_under_change_of_unit_witness :
  (0 < 100)%R
  /\ annualized_mean (map (fun x => 100 * x)%R [1 / 4; 1 / 2; 3 / 4]%R)
     = (100 * annualized_mean [1 / 4; 1 / 2; 3 / 4]%R)%R.
Proof.
  assert (H : (0 < 100)%R) by lra.
  split; [exact H|].
  exact (proj1 (statistics_under_change_of_unit 0%R [1 / 4; 1 / 2; 3 / 4]%R H)).
Defined.

(** ** One row per security-month *)

Section UniqueKeys.
Context {F : Type} {N : Num F}.

Lemma NoDup_map_filter {A B : Type} (g : A -> B) (f : A -> bool) (l : list A) :
  NoDup (map g l) -> NoDup (map g (filter f l)).
Proof.
  induction l as [|x t IH]; cbn; intros H; [constructor|].
  inversion H as [|? ? Hx Ht]; subst.
  destruct (f x); cbn; [|now apply IH].
  constructor; [|now apply IH].
  intros Hin. apply Hx. apply in_map_iff in Hin. destruct Hin as (y & E & Hy).
  apply filter_In in Hy. rewrite <- E. apply in_map. tauto.
Qed.

Lemma merge_left_keys_unique (crsp : list (crsp_row F)) (dl : list (dl_row F)) :
  NoDup (map (@d_key F) dl) ->
  map (@m_key F) (flat_map (merge_left dl) crsp) = map (@c_key F) crsp.
Proof.
  intros H. induction crsp as [|c t IH]; cbn; [reflexivity|].
  rewrite map_app, IH. f_equal.
  pose proof (@merge_left_one_row F dl c H) as Hlen.
  destruct (merge_left dl c) as [|m [|m' ms]] eqn:E; cbn in Hlen; try discriminate.
  cbn. f_equal. apply (@merge_left_keys F dl c). rewrite E. now left.
Qed.

Lemma merge_outer_keys_unique (crsp : list (crsp_row F)) (dl : list (dl_row F)) :
  NoDup (map (@c_key F) crsp) -> NoDup (map (@d_key F) dl) ->
  NoDup (map (@m_key F) (merge_outer crsp dl)).
Proof.
  intros Hc Hd. unfold merge_outer.
  apply (Permutation_NoDup
           (l := map (@m_key F) (flat_map (merge_left dl) crsp
                                   ++ map (@of_right F) (right_only crsp dl)))).
  { apply Permutation_map. symmetry. apply sort_values_perm. }
  rewrite map_app, merge_left_keys_unique, map_map by exact Hd.
  change (fun x => m_key (of_right x)) with (@d_key F).
  apply NoDup_app.
  - exact Hc.
  - unfold right_only. now apply NoDup_map_filter.
  - intros k Hk Hk'. apply in_map_iff in Hk'. destruct Hk' as (d & <- & Hd').
    unfold right_only in Hd'. apply filter_In in Hd'. destruct Hd' as [_ Hn].
    apply negb_true_iff in Hn.
    apply in_map_iff in Hk. destruct Hk as (c & E & Hc').
    assert (Hex : existsb (fun c => key_eqb (c_key c) (d_key d)) crsp = true).
    { apply existsb_exists. exists c. split; [exact Hc'|]. now apply key_eqb_eq. }
    congruence.
Qed.

Lemma dropna_filter_keys_unique (f : lagged F -> bool) (l : list (lagged F)) :
  NoDup (map (fun r => s_key (row r)) l) ->
  NoDup (map (fun p => (p_permno p, p_ym p)) (dropna (filter f l))).
Proof.
  induction l as [|r t IH]; cbn; intros H; [constructor|].
  inversion H as [|? ? Hr Ht]; subst.
  destruct (f r); [|now apply IH]. cbn.
  destruct (complete_row r) as [p|] eqn:E; [|now apply IH].
  cbn. constructor; [|now apply IH].
  intros Hin. apply Hr. apply in_map_iff in Hin. destruct Hin as (q & Eq & Hq).
  apply dropna_In in Hq. destruct Hq as (r' & Hr' & E').
  apply filter_In in Hr'. destruct Hr' as [Hr' _].
  rewrite (complete_row_key _ E) in Eq. rewrite (complete_row_key _ E') in Eq.
  rewrite <- Eq. apply in_map_iff. exists r'. auto.
Qed.

(** X22. If the raw security table has one row for each security-month and
    the raw delisting table at most one event for each security-month, then
    so have the enriched panel and the analysis panel. *)
Theorem one_row_per_security_month
    (crsp_raw : list (crsp_row F)) (dlret_raw : list (dl_row F)) :
  NoDup (map (@c_key F) crsp_raw) ->
  NoDup (map (@d_key F) dlret_raw) ->
  NoDup (map (fun r => s_key (row r)) (enriched crsp_raw dlret_raw))
  /\ NoDup (map (fun p => (p_permno p, p_ym p)) (stocks crsp_raw dlret_raw)).
Proof.
  intros Hc Hd.
  assert (Henr : NoDup (map (fun r => s_key (row r)) (enriched crsp_raw dlret_raw))).
  { unfold enriched.
    rewrite <- (map_map (@row F) (@s_key F)), attach_lme_rows.
    apply (Permutation_NoDup
             (l := map (@s_key F)
                     (stocks_filled (merge_outer (clean_crsp crsp_raw)
                                       (clean_dlret dlret_raw))))).
    { apply Permutation_map. symmetry. apply sort_values_perm. }
    rewrite stocks_filled_keys. apply merge_outer_keys_unique.
    - apply (Permutation_NoDup (l := map (@c_key F) crsp_raw)); [|exact Hc].
      unfold clean_crsp. rewrite map_map.
      change (fun x => c_key (abs_prc x)) with (@c_key F).
      apply Permutation_map. symmetry. apply sort_values_perm.
    - apply (Permutation_NoDup (l := map (@d_key F) dlret_raw)); [|exact Hd].
      unfold clean_dlret. apply Permutation_map. symmetry. apply sort_values_perm. }
  split; [exact Henr|].
  unfold stocks, share_exchange_filter. now apply dropna_filter_keys_unique.
Qed.
End UniqueKeys.

Lemma one_row_per_security_month_witness :
  NoDup (map (@c_key float) crsp_delisting)
  /\ NoDup (map (@d_key float) dlret_delisting)
  /\ NoDup (map (fun p => (p_permno p, p_ym p)) (stocks crsp_delisting dlret_delisting)).
Proof.
  assert (Hc : NoDup (map (@c_key float) crsp_delisting)).
  { repeat (constructor; [cbn; intuition discriminate|]). constructor. }
  assert (Hd : NoDup (map (@d_key float) dlret_delisting)).
  { repeat (constructor; [cbn; intuition discriminate|]). constructor. }
  split; [exact Hc|]. split; [exact Hd|].
  exact (proj2 (one_row_per_security_month crsp_delisting dlret_delisting Hc Hd)).
Defined.
